(** * converge: signalling relay and client session manager

    A shallow embedding of the two TypeScript components of the
    repository:

    - the signalling relay [attach] (server package): the room registry
      [rooms], the reverse lookup [reverseRoomLookup] and the socket
      handlers for [join], [disconnect], [offer], [answer], [candidate];
    - the client ([ConvergeClient] and [ConvergeRemotePeer], in their latest
      revision, the one with the [ProtocolHeading] enum).

    Modelling conventions.
    - A JavaScript object used as a dictionary ([Record<string, T>]) is a
      [gmap string T] of its own properties; a read [obj[k]] also sees the
      properties every object inherits from [Object.prototype].  Where the
      order of enumeration is observable ([Object.values(this._peers)]) the
      dictionary is an association list in enumeration order.
    - Handlers are state transformers.  What a relay handler emits on a
      socket is returned as a list, in emission order; what the client emits
      to the application and to the relay is appended to two logs kept in
      its state, and what it sends to a peer is appended to the log of that
      peer's data channel.
    - Asynchronous code is cut at its suspension points: a handler runs up
      to its first [await], and the resolution of a promise or a browser
      callback is a separate input.
    - A JavaScript exception does not roll back the mutations made before it
      was thrown: a client operation returns the state it leaves behind
      together with either its result or the error thrown. *)

From Stdlib Require Import ZArith.
From stdpp Require Import gmap strings list fin_maps.

Local Open Scope Z_scope.
Set Warnings "-register-all".

(** ** JavaScript array helpers *)

Module JsArray.

(** [Array.prototype.indexOf]: first index holding [x], or [-1]. *)
Fixpoint indexOf_from {A} `{EqDecision A} (x : A) (l : list A) (i : Z) : Z :=
  match l with
  | [] => -1
  | y :: l' => if decide (y = x) then i else indexOf_from x l' (i + 1)
  end.

Definition indexOf {A} `{EqDecision A} (x : A) (l : list A) : Z :=
  indexOf_from x l 0.

(** [arr.splice(start, 1)]: a negative [start] counts from the end of the
    array (clamped at 0), a [start] beyond the end is clamped to the
    length; one element is removed at the resulting position if there is
    one. *)
Definition splice1 {A} (start : Z) (l : list A) : list A :=
  let len := Z.of_nat (length l) in
  let actualStart :=
    if start <? 0 then Z.max (len + start) 0 else Z.min start len in
  delete (Z.to_nat actualStart) l.

(** A property access [obj[k]] converts the key to a string; the key
    [undefined] reads the property named ["undefined"]. *)
Definition property_key (k : option string) : string :=
  default "undefined"%string k.

End JsArray.

(** Objects used as dictionaries.  Both dictionaries of the relay and the
    peer set of the client are created as [{}], so a read [obj[k]] that
    finds no own property [k] goes on to [Object.prototype]. *)
Module JsObject.

(** The names of the properties of [Object.prototype].  Each of them reads
    as a function, or for [__proto__] as the prototype object itself: a
    value that is truthy and is neither an array nor a handle. *)
Definition Object_prototype : list string :=
  ["constructor"; "__proto__"; "hasOwnProperty"; "isPrototypeOf";
   "propertyIsEnumerable"; "toLocaleString"; "toString"; "valueOf";
   "__defineGetter__"; "__defineSetter__"; "__lookupGetter__";
   "__lookupSetter__"]%string.

Definition inherited (k : string) : bool := bool_decide (k ∈ Object_prototype).

(** What a read [obj[k]] finds. *)
Inductive Property (V : Type) :=
| own (v : V)
| from_prototype
| undefined.
Arguments own {V} v.
Arguments from_prototype {V}.
Arguments undefined {V}.

(** [obj[k]] for a dictionary whose order of enumeration is not observed. *)
Definition read {V} (k : string) (m : gmap string V) : Property V :=
  match m !! k with
  | Some v => own v
  | None => if inherited k then from_prototype else undefined
  end.

(** A property name that is an array index, that is the canonical decimal
    form of an integer below [2^32 - 1]: such keys are enumerated first, in
    ascending order, the others after them in insertion order. *)
Fixpoint decimal (s : string) (acc : N) : option N :=
  match s with
  | EmptyString => Some acc
  | String c s' =>
      let d := Ascii.N_of_ascii c in
      if ((48 <=? d) && (d <=? 57))%N then decimal s' (10 * acc + (d - 48))%N
      else None
  end.

Definition array_index (k : string) : option N :=
  match k with
  | EmptyString => None
  | String c rest =>
      if (Ascii.N_of_ascii c =? 48)%N && negb (bool_decide (rest = EmptyString))
      then None
      else match decimal k 0%N with
           | Some n => if (n <? 4294967295)%N then Some n else None
           | None => None
           end
  end.

Section dictionary.
Context {V : Type}.

(** The own property [k], if there is one. *)
Fixpoint get (k : string) (o : list (string * V)) : option V :=
  match o with
  | [] => None
  | (k', v) :: o' => if decide (k' = k) then Some v else get k o'
  end.

(** [o[k]] *)
Definition lookup (k : string) (o : list (string * V)) : Property V :=
  match get k o with
  | Some v => own v
  | None => if inherited k then from_prototype else undefined
  end.

(** Assignment to an existing own property: it keeps its position. *)
Fixpoint replace (k : string) (v : V) (o : list (string * V))
  : list (string * V) :=
  match o with
  | [] => []
  | (k', v') :: o' =>
      if decide (k' = k) then (k, v) :: o' else (k', v') :: replace k v o'
  end.

(** A new array-index key goes before the first key that is not an array
    index or is a larger one. *)
Fixpoint insert_index (n : N) (k : string) (v : V) (o : list (string * V))
  : list (string * V) :=
  match o with
  | [] => [(k, v)]
  | (k', v') :: o' =>
      match array_index k' with
      | Some n' =>
          if (n' <? n)%N then (k', v') :: insert_index n k v o'
          else (k, v) :: o
      | None => (k, v) :: o
      end
  end.

(** [o[k] = v] *)
Definition set (k : string) (v : V) (o : list (string * V))
  : list (string * V) :=
  match get k o with
  | Some _ => replace k v o
  | None =>
      match array_index k with
      | Some n => insert_index n k v o
      | None => o ++ [(k, v)]
      end
  end.

(** [delete o[k]] *)
Fixpoint del (k : string) (o : list (string * V)) : list (string * V) :=
  match o with
  | [] => []
  | (k', v') :: o' =>
      if decide (k' = k) then del k o' else (k', v') :: del k o'
  end.

(** [Object.keys(o)] and [Object.values(o)] *)
Definition keys (o : list (string * V)) : list string := map fst o.
Definition values (o : list (string * V)) : list V := map snd o.
End dictionary.

End JsObject.

(** The three negotiation messages.  [sdp] holds the [sdp] field of an
    offer or answer and the [candidate] field of a candidate. *)
Record SignalMessage :=
  { sdp : string; peerId : string; sourcePeerId : string }.

(** ** The signalling relay *)

Module Relay.
Import JsArray.

(** A socket.io [Socket]; the relay only ever reads its [id].  Two sockets
    are the same object exactly when they have the same identifier.  The
    identifier is generated by socket.io (twenty characters of its own
    alphabet): it is not chosen by a client and is never the name of a
    property of [Object.prototype], so [reverseRoomLookup[socket.id]] reads
    an own property or nothing. *)
Record Socket := { id : string }.

#[global] Instance Socket_eq_dec : EqDecision Socket.
Proof. solve_decision. Defined.

(** Events the relay emits to a client; negotiation messages are forwarded
    verbatim. *)
Inductive ServerEvent :=
| Peers (ids : list string)
| PeerDisconnected (peer : string)
| Offer (m : SignalMessage)
| Answer (m : SignalMessage)
| Candidate (m : SignalMessage).

(** An emission: the identifier of the socket (or socket.io room) the event
    is emitted to, and the event. *)
Definition Emission : Type := string * ServerEvent.

(** The two dictionaries closed over by [attach]. *)
Record State :=
  { rooms : gmap string (list Socket);
    reverseRoomLookup : gmap string string }.

Definition init : State := {| rooms := ∅; reverseRoomLookup := ∅ |}.

(** The members of a room: the array stored under [room], none when the
    registry has no such room. *)
Definition members (room : string) (st : State) : list Socket :=
  default [] (rooms st !! room).

(** The state a join leaves when the room is found or created. *)
Definition joined (room : string) (c : Socket) (st : State) : State :=
  {| rooms := <[room := members room st ++ [c]]> (rooms st);
     reverseRoomLookup := <[id c := room]> (reverseRoomLookup st) |}.

(** [socket.on('join', ...)].  When [rooms[room]] finds an inherited
    property the value is neither falsy nor an array: [peers.map] is not a
    function, the handler (an [async] function) ends with a rejected
    promise, nothing has been emitted and nothing is changed. *)
Definition join (room : string) (socket : Socket) (st : State)
  : State * list Emission :=
  let joined (peers : list Socket) : State * list Emission :=
    let emitted := (id socket, Peers (map id peers)) in
    ({| rooms := <[room := peers ++ [socket]]> (rooms st);
        reverseRoomLookup := <[id socket := room]> (reverseRoomLookup st) |},
     [emitted]) in
  match JsObject.read room (rooms st) with
  | JsObject.own peers => joined peers
  | JsObject.undefined => joined []
  | JsObject.from_prototype => (st, [])
  end.

(** [socket.on('disconnect', ...)].  An inherited property read as the room
    is truthy but has no [indexOf]: the handler throws before it changes or
    emits anything. *)
Definition disconnect (socket : Socket) (st : State)
  : State * list Emission :=
  let roomId := reverseRoomLookup st !! id socket in
  match JsObject.read (property_key roomId) (rooms st) with
  | JsObject.own room =>
      let room' := splice1 (indexOf socket room) room in
      let rooms' := <[property_key roomId := room']> (rooms st) in
      if decide (length room' = 0%nat) then
        ({| rooms := delete (id socket) rooms';
            reverseRoomLookup := reverseRoomLookup st |}, [])
      else
        ({| rooms := rooms'; reverseRoomLookup := reverseRoomLookup st |},
         map (fun peer => (id peer, PeerDisconnected (id socket))) room')
  | JsObject.from_prototype => (st, [])
  | JsObject.undefined => (st, [])
  end.

(** [socket.on('offer' | 'answer' | 'candidate', ...)]: [io.to(peerId).emit]. *)
Definition relay_offer (m : SignalMessage) (st : State)
  : State * list Emission := (st, [(peerId m, Offer m)]).
Definition relay_answer (m : SignalMessage) (st : State)
  : State * list Emission := (st, [(peerId m, Answer m)]).
Definition relay_candidate (m : SignalMessage) (st : State)
  : State * list Emission := (st, [(peerId m, Candidate m)]).

(** What a connected socket can send to the relay. *)
Inductive Request :=
| Join (room : string)
| Disconnect
| SendOffer (m : SignalMessage)
| SendAnswer (m : SignalMessage)
| SendCandidate (m : SignalMessage).

Definition handle (socket : Socket) (req : Request) (st : State)
  : State * list Emission :=
  match req with
  | Join room => join room socket st
  | Disconnect => disconnect socket st
  | SendOffer m => relay_offer m st
  | SendAnswer m => relay_answer m st
  | SendCandidate m => relay_candidate m st
  end.

(** Running a trace of requests from a state; emissions are accumulated in
    order. *)
Definition step (acc : State * list Emission) (e : Socket * Request)
  : State * list Emission :=
  let '(st', out) := handle e.1 e.2 acc.1 in (st', acc.2 ++ out).

Definition run_from (st : State) (tr : list (Socket * Request))
  : State * list Emission :=
  fold_left step tr (st, []).

Definition run (tr : list (Socket * Request)) : State * list Emission :=
  run_from init tr.




End Relay.

(** ** Values, errors and the peer channel *)

(** JavaScript values as far as the client handles them ([any]).  Numbers
    are restricted to integers. *)
Inductive JsValue :=
| JsUndefined
| JsNull
| JsBool (b : bool)
| JsNumber (n : Z)
| JsString (s : string)
| JsArr (items : list JsValue)
| JsObj (fields : list (string * JsValue)).

(** The text written by [JSON.stringify] is represented by the value
    [JSON.parse] reads back from it: inside an array [undefined] becomes
    [null], inside an object a property whose value is [undefined] is
    left out. *)
Fixpoint JSON_stringify (v : JsValue) : JsValue :=
  match v with
  | JsArr items =>
      JsArr (map (fun x => match x with
                           | JsUndefined => JsNull
                           | _ => JSON_stringify x
                           end) items)
  | JsObj fields =>
      JsObj (omap (fun kv => match kv with
                             | (k, x) =>
                                 match x with
                                 | JsUndefined => None
                                 | _ => Some (k, JSON_stringify x)
                                 end
                             end) fields)
  | _ => v
  end.

Definition JSON_parse (text : JsValue) : JsValue := text.

Record JsError := { name : string; message : string }.

Definition Error (msg : string) : JsError :=
  {| name := "Error"; message := msg |}.
Definition TypeError (msg : string) : JsError :=
  {| name := "TypeError"; message := msg |}.

(** [enum ProtocolHeading] *)
Module ProtocolHeading.
Definition Presence : string := "p".
Definition Broadcast : string := "b".
Definition DirectMessage : string := "d".
End ProtocolHeading.

(** The browser's [RTCDataChannel], as far as the client uses it: its
    label, its ready state and the data handed to [send], in order.
    [send] raises [InvalidStateError] unless the channel is open. *)
Inductive RTCDataChannelState := connecting | open | closing | closed.

Record RTCDataChannel :=
  { label : string;
    readyState : RTCDataChannelState;
    sent : list JsValue }.

Definition channel_send (data : JsValue) (channel : RTCDataChannel)
  : RTCDataChannel * option JsError :=
  match readyState channel with
  | open =>
      ({| label := label channel; readyState := open;
          sent := sent channel ++ [data] |}, None)
  | _ =>
      (channel,
       Some {| name := "InvalidStateError";
               message := "RTCDataChannel.readyState is not 'open'" |})
  end.

(** Calls made on the handle's [RTCPeerConnection], in order. *)
Inductive RtcCall :=
| createDataChannel (label : string)
| createOffer
| createAnswer
| setLocalDescription (sdp : string)
| setRemoteDescription (type : string) (sdp : string)
| addIceCandidate (candidate : string).

(** Events of [ConvergeRemotePeerEvents]; each carries the handle's id. *)
Inductive PeerEvent :=
| ev_disconnect (peerId : string)
| ev_connect (peerId : string)
| ev_candidate (peerId : string) (candidate : string)
| ev_offer (peerId : string) (offer : string)
| ev_answer (peerId : string) (answer : string)
| ev_message (peerId : string) (message : JsValue)
| ev_directMessage (peerId : string) (message : JsValue)
| ev_presenceChanged (peerId : string) (presence : JsValue).

(** The string iterator yields one code point at a time.  A string is
    held as its UTF-8 text: the first byte of a code point tells how many
    bytes it takes. *)
Definition utf8_length (c : Ascii.ascii) : nat :=
  let n := Ascii.N_of_ascii c in
  if (n <? 192)%N then 1%nat
  else if (n <? 224)%N then 2%nat
  else if (n <? 240)%N then 3%nat
  else 4%nat.

Definition next_code_point (s : string) : option (string * string) :=
  match s with
  | EmptyString => None
  | String c rest =>
      let n := (utf8_length c - 1)%nat in
      Some (String c (String.substring 0 n rest),
            String.substring n (String.length rest - n) rest)
  end.

(** [const [type, payload] = value]: array destructuring.  An array gives
    its first two elements ([undefined] where it is shorter), a string its
    first two code points, anything else is not iterable: a [TypeError],
    whose message is the engine's own and is stood for by one text here. *)
Definition destructure2 (value : JsValue) : JsError + (JsValue * JsValue) :=
  match value with
  | JsArr items =>
      inr (default JsUndefined (items !! 0%nat),
           default JsUndefined (items !! 1%nat))
  | JsString s =>
      match next_code_point s with
      | None => inr (JsUndefined, JsUndefined)
      | Some (first, rest) =>
          inr (JsString first,
               match next_code_point rest with
               | None => JsUndefined
               | Some (second, _) => JsString second
               end)
      end
  | _ => inl (TypeError "value is not iterable")
  end.

(** ** [class ConvergeRemotePeer] *)

Module ConvergeRemotePeer.

Definition DATA_CHANNEL_LABEL : string := "data".

Record t :=
  { id : string;
    dataChannels : gmap string RTCDataChannel;
    presence : JsValue;
    rtc : list RtcCall }.

(** [new ConvergeRemotePeer(id)] *)
Definition new (id : string) : t :=
  {| id := id; dataChannels := ∅; presence := JsUndefined; rtc := [] |}.

Definition rtc_call (call : RtcCall) (this : t) : t :=
  {| id := id this; dataChannels := dataChannels this;
     presence := presence this; rtc := rtc this ++ [call] |}.

Definition setupDataChannel (channel : RTCDataChannel) (this : t) : t :=
  {| id := id this;
     dataChannels := <[label channel := channel]> (dataChannels this);
     presence := presence this; rtc := rtc this |}.

Definition setupDefaultDataChannel (this : t) : t :=
  let this := rtc_call (createDataChannel DATA_CHANNEL_LABEL) this in
  let dataChannel :=
    {| label := DATA_CHANNEL_LABEL; readyState := connecting; sent := [] |} in
  setupDataChannel dataChannel this.

(** [_connect], up to its [await]; the offer arrives in [onLocalOffer]. *)
Definition _connect (this : t) : t :=
  rtc_call createOffer (setupDefaultDataChannel this).

Definition onLocalOffer (offer : string) (this : t) : t * list PeerEvent :=
  (rtc_call (setLocalDescription offer) this, [ev_offer (id this) offer]).

Definition onLocalAnswer (answer : string) (this : t) : t * list PeerEvent :=
  (rtc_call (setLocalDescription answer) this, [ev_answer (id this) answer]).

(** [event.candidate] is [None] for the end-of-candidates event; otherwise
    the argument is its JSON text. *)
Definition handleIceCandidate (candidate : option string) (this : t)
  : list PeerEvent :=
  match candidate with
  | Some c => [ev_candidate (id this) c]
  | None => []
  end.

Definition handleIceConnectionStateChange (iceConnectionState : string)
  (this : t) : list PeerEvent :=
  if bool_decide (iceConnectionState = "closed"%string)
     || bool_decide (iceConnectionState = "failed"%string)
     || bool_decide (iceConnectionState = "disconnected"%string)
  then [ev_disconnect (id this)]
  else [].

Definition handleSignalingStateChange (signalingState : string) (this : t)
  : list PeerEvent :=
  if bool_decide (signalingState = "closed"%string)
  then [ev_disconnect (id this)]
  else [].

Definition _handleOffer (offerMessage : SignalMessage) (this : t) : t :=
  rtc_call createAnswer
    (rtc_call (setRemoteDescription "offer" (sdp offerMessage)) this).

Definition _handleAnswer (answerMessage : SignalMessage) (this : t) : t :=
  rtc_call (setRemoteDescription "answer" (sdp answerMessage)) this.

(** [new RTCIceCandidate(JSON.parse(candidateMessage.candidate))] is up to
    the browser: it throws a [SyntaxError] for text that is not JSON and a
    [TypeError] for an init it refuses.  [refused] is what it throws on this
    message, [None] when it returns; [addIceCandidate] is called only then. *)
Definition _handleCandidate (candidateMessage : SignalMessage)
  (refused : option JsError) (this : t) : t * option JsError :=
  match refused with
  | Some e => (this, Some e)
  | None => (rtc_call (addIceCandidate (sdp candidateMessage)) this, None)
  end.

Definition _handleDataChannel (channel : RTCDataChannel) (this : t) : t :=
  setupDataChannel channel this.

Definition handleDataChannelOpen (this : t) : list PeerEvent :=
  [ev_connect (id this)].

Definition handleDataChannelMessage (data : JsValue) (this : t)
  : t * list PeerEvent * option JsError :=
  match destructure2 (JSON_parse data) with
  | inl e => (this, [], Some e)
  | inr (type, payload) =>
      match type with
      | JsString type =>
          if bool_decide (type = ProtocolHeading.Presence) then
            ({| id := id this; dataChannels := dataChannels this;
                presence := payload; rtc := rtc this |},
             [ev_presenceChanged (id this) payload], None)
          else if bool_decide (type = ProtocolHeading.Broadcast) then
            (this, [ev_message (id this) payload], None)
          else if bool_decide (type = ProtocolHeading.DirectMessage) then
            (this, [ev_directMessage (id this) payload], None)
          else (this, [], None)
      | _ => (this, [], None)
      end
  end.

Definition _sendRaw (message : JsValue) (this : t) : t * option JsError :=
  match dataChannels this !! DATA_CHANNEL_LABEL with
  | Some channel =>
      match channel_send message channel with
      | (channel', None) =>
          ({| id := id this;
              dataChannels :=
                <[DATA_CHANNEL_LABEL := channel']> (dataChannels this);
              presence := presence this; rtc := rtc this |}, None)
      | (_, Some e) => (this, Some e)
      end
  | None => (this, Some (Error "no data channel"))
  end.

Definition sendMessage (message : JsValue) (this : t) : t * option JsError :=
  _sendRaw (JSON_stringify (JsArr [JsString "m"; message])) this.

Definition sendPresence (presence : JsValue) (this : t) : t * option JsError :=
  _sendRaw (JSON_stringify (JsArr [JsString "p"; presence])) this.

(** What has been handed to the handle's default data channel. *)
Definition delivered (this : t) : list JsValue :=
  match dataChannels this !! DATA_CHANNEL_LABEL with
  | Some channel => sent channel
  | None => []
  end.

(** The handle is connected: its default data channel exists and is
    open. *)
Definition connected (this : t) : bool :=
  match dataChannels this !! DATA_CHANNEL_LABEL with
  | Some channel =>
      match readyState channel with open => true | _ => false end
  | None => false
  end.

End ConvergeRemotePeer.

(** ** [class ConvergeClient] *)

(** Events of [ConvergeClientEvents], as emitted to the application. *)
Module ConvergeClientEvents.
Inductive t :=
| connected (id : option string)
| peerConnected (id : string)
| peerDisconnected (id : string)
| broadcast (id : string) (message : JsValue)
| directMessage (id : string) (message : JsValue)
| peerPresenceChanged (id : string) (presence : JsValue).
End ConvergeClientEvents.

Module ConvergeClient.
Import JsObject.

(** What the client emits on its signalling socket: the event name
    (["offer"], ["answer"] or ["candidate"]), the negotiation data, the
    target [peerId] and [sourcePeerId], which is [this.signalling.id]. *)
Record SignallingEmit :=
  { event : string;
    data : string;
    target : string;
    source : option string }.

(** The fields of the client that change, and the two logs of what it has
    emitted: to the application ([this.emit]) and to the relay
    ([this.signalling.emit]).  The field [log], which is assigned in the
    constructor only, is the parameter [log] of the handlers below. *)
Record t :=
  { _peers : list (string * ConvergeRemotePeer.t);
    _presence : JsValue;
    signalling_id : option string;
    emitted : list ConvergeClientEvents.t;
    signalling_emitted : list SignallingEmit }.

(** The client as its constructor leaves it. *)
Definition new : t :=
  {| _peers := []; _presence := JsUndefined; signalling_id := None;
     emitted := []; signalling_emitted := [] |}.

Definition set_peers (peers : list (string * ConvergeRemotePeer.t)) (this : t)
  : t :=
  {| _peers := peers; _presence := _presence this;
     signalling_id := signalling_id this; emitted := emitted this;
     signalling_emitted := signalling_emitted this |}.

(** *** Computations on the client: state and exceptions *)

Definition M (A : Type) : Type := t → t * (JsError + A).

#[global] Instance M_ret : MRet M := λ A x this, (this, inr x).
#[global] Instance M_bind : MBind M := λ A B f m this,
  match m this with
  | (this', inl e) => (this', inl e)
  | (this', inr x) => f x this'
  end.

Definition throw {A} (e : JsError) : M A := λ this, (this, inl e).
Definition gets {A} (f : t → A) : M A := λ this, (this, inr (f this)).
Definition modify (f : t → t) : M () := λ this, (f this, inr ()).

Fixpoint for_each {A} (l : list A) (body : A → M ()) : M () :=
  match l with
  | [] => mret ()
  | x :: l' => body x ;; for_each l' body
  end.

(** [this.emit(...)] and [this.signalling.emit(...)] *)
Definition emit (ev : ConvergeClientEvents.t) : M () :=
  modify (λ this,
    {| _peers := _peers this; _presence := _presence this;
       signalling_id := signalling_id this;
       emitted := emitted this ++ [ev];
       signalling_emitted := signalling_emitted this |}).

Definition signalling_emit (event data target : string) : M () :=
  modify (λ this,
    {| _peers := _peers this; _presence := _presence this;
       signalling_id := signalling_id this;
       emitted := emitted this;
       signalling_emitted :=
         signalling_emitted this
         ++ [{| event := event; data := data; target := target;
                source := signalling_id this |}] |}).

(** A method call [this._peers[peerId].method(...)] that mutates the handle
    in place (the property keeps its position). *)
Definition mutate_peer (peerId : string)
  (method : ConvergeRemotePeer.t → ConvergeRemotePeer.t) : M () :=
  modify (λ this,
    match get peerId (_peers this) with
    | Some peer => set_peers (set peerId (method peer) (_peers this)) this
    | None => this
    end).

(** [for (const v of Object.values(o)) body(v)] where [body] mutates the
    object [v] and may throw, which ends the loop. *)
Fixpoint for_values {V} (body : V → V * option JsError)
  (o : list (string * V)) : list (string * V) * option JsError :=
  match o with
  | [] => ([], None)
  | (k, v) :: o' =>
      match body v with
      | (v', Some e) => ((k, v') :: o', Some e)
      | (v', None) =>
          let '(o'', thrown) := for_values body o' in ((k, v') :: o'', thrown)
      end
  end.

(** *** Getters *)

Definition presence (this : t) : JsValue := _presence this.
Definition id (this : t) : option string := signalling_id this.
Definition peers (this : t) : list string := keys (_peers this).

(** *** Handlers and methods *)

(** [type Logger].  A logger that is given is taken to return normally;
    what it prints is not modelled. *)
Inductive Logger := logger_given.

Definition not_a_function (what : string) : JsError :=
  TypeError (what +:+ " is not a function").

Definition handlePeerDisconnected (peerId : string) : M () :=
  modify (λ this, set_peers (del peerId (_peers this)) this) ;;
  emit (ConvergeClientEvents.peerDisconnected peerId).

(** [setupRemotePeer] returns [this._peers[peerId]]: the handle found or
    created, or ([None]) an inherited property, which is truthy and so
    keeps the handle from being created. *)
Definition setupRemotePeer (peerId : string)
  : M (option ConvergeRemotePeer.t) :=
  found ← gets (λ this, lookup peerId (_peers this));
  match found with
  | own peer => mret (Some peer)
  | from_prototype => mret None
  | undefined =>
      let peer := ConvergeRemotePeer.new peerId in
      modify (λ this, set_peers (set peerId peer (_peers this)) this) ;;
      mret (Some peer)
  end.

(** [const peer = this.setupRemotePeer(peerId); peer.method(...)]: the
    method runs on the handle found or created; on an inherited property,
    which has no such method, the call throws [e]. *)
Definition call_on_setup (peerId : string)
  (method : ConvergeRemotePeer.t → ConvergeRemotePeer.t) (e : JsError)
  : M () :=
  peer ← setupRemotePeer peerId;
  match peer with
  | Some _ => mutate_peer peerId method
  | None => throw e
  end.

Definition broadcastRaw (type : string) (message : JsValue) : M () :=
  λ this,
    let '(peers', thrown) :=
      for_values
        (ConvergeRemotePeer._sendRaw
           (JSON_stringify (JsArr [JsString type; message])))
        (_peers this) in
    (set_peers peers' this,
     match thrown with Some e => inl e | None => inr () end).

Definition broadcast (message : JsValue) : M () :=
  broadcastRaw ProtocolHeading.Broadcast message.

Definition updatePresence (presence : JsValue) : M () :=
  modify (λ this,
    {| _peers := _peers this; _presence := presence;
       signalling_id := signalling_id this; emitted := emitted this;
       signalling_emitted := signalling_emitted this |}) ;;
  broadcastRaw ProtocolHeading.Presence presence.

(** [this._peers[peerId]?.presence ?? null]; an inherited property has no
    [presence]. *)
Definition getPresence (peerId : string) (this : t) : JsValue :=
  match lookup peerId (_peers this) with
  | own peer =>
      match ConvergeRemotePeer.presence peer with
      | JsUndefined | JsNull => JsNull
      | presence => presence
      end
  | from_prototype => JsNull
  | undefined => JsNull
  end.

(** An inherited property passes the guard and has no [_sendRaw]. *)
Definition directMessage (peerId : string) (message : JsValue) : M () :=
  found ← gets (λ this, lookup peerId (_peers this));
  match found with
  | undefined => throw (Error ("Peer " +:+ peerId +:+ " not connected"))
  | from_prototype => throw (not_a_function "this._peers[peerId]._sendRaw")
  | own peer =>
      let '(peer', thrown) :=
        ConvergeRemotePeer._sendRaw
          (JSON_stringify
             (JsArr [JsString ProtocolHeading.DirectMessage; message]))
          peer in
      modify (λ this, set_peers (set peerId peer' (_peers this)) this) ;;
      match thrown with
      | Some e => throw e
      | None => mret ()
      end
  end.

(** The handlers that call [this.log].  The constructor assigns
    [this.log = options.logger] once and nothing changes it: [log] is the
    logger of the options the client was built with, [None] when they have
    none, in which case the call [this.log(...)] throws. *)
Section handlers.
Variable log : option Logger.

Definition call_log : M () :=
  match log with
  | Some _ => mret ()
  | None => throw (not_a_function "this.log")
  end.

Definition handleSignallingConnect : M () :=
  call_log ;;
  id ← gets id; emit (ConvergeClientEvents.connected id).

Definition handlePeers (peers : list string) : M () :=
  call_log ;;
  for_each peers (λ peerId,
    call_on_setup peerId ConvergeRemotePeer._connect
      (not_a_function "peer._connect")).

Definition handlePeerConnect (peerId : string) : M () :=
  call_log ;;
  emit (ConvergeClientEvents.peerConnected peerId) ;;
  found ← gets (λ this, lookup peerId (_peers this));
  match found with
  | own peer =>
      presence ← gets presence;
      let message := JSON_stringify (JsArr [JsString "p"; presence]) in
      let '(peer', thrown) := ConvergeRemotePeer._sendRaw message peer in
      modify (λ this, set_peers (set peerId peer' (_peers this)) this) ;;
      match thrown with
      | Some e => throw e
      | None => mret ()
      end
  | from_prototype => throw (not_a_function "this._peers[peerId]._sendRaw")
  | undefined => throw (TypeError "Cannot read properties of undefined")
  end.

Definition handleOffer (offerMessage : SignalMessage) : M () :=
  call_log ;;
  call_on_setup (sourcePeerId offerMessage)
    (ConvergeRemotePeer._handleOffer offerMessage)
    (not_a_function "peer._handleOffer").

Definition handleAnswer (answerMessage : SignalMessage) : M () :=
  call_log ;;
  found ← gets (λ this, lookup (sourcePeerId answerMessage) (_peers this));
  match found with
  | own _ =>
      mutate_peer (sourcePeerId answerMessage)
        (ConvergeRemotePeer._handleAnswer answerMessage)
  | from_prototype => throw (not_a_function "peer._handleAnswer")
  | undefined => mret ()
  end.

Definition handleCandidate (candidateMessage : SignalMessage)
  (refused : option JsError) : M () :=
  call_log ;;
  found ← gets (λ this, lookup (sourcePeerId candidateMessage) (_peers this));
  match found with
  | own peer =>
      let '(peer', thrown) :=
        ConvergeRemotePeer._handleCandidate candidateMessage refused peer in
      modify (λ this,
        set_peers (set (sourcePeerId candidateMessage) peer' (_peers this))
          this) ;;
      match thrown with
      | Some e => throw e
      | None => mret ()
      end
  | from_prototype => throw (not_a_function "peer._handleCandidate")
  | undefined => mret ()
  end.

Definition handleLocalOffer (remotePeerId offer : string) : M () :=
  call_log ;; signalling_emit "offer" offer remotePeerId.

Definition handleLocalAnswer (remotePeerId answer : string) : M () :=
  call_log ;; signalling_emit "answer" answer remotePeerId.

Definition handleLocalCandidate (remotePeerId candidate : string) : M () :=
  call_log ;; signalling_emit "candidate" candidate remotePeerId.

Definition handleRemotePeerMessage (remotePeerId : string)
  (message : JsValue) : M () :=
  call_log ;; emit (ConvergeClientEvents.broadcast remotePeerId message).

Definition handleRemotePeerDirectMessage (remotePeerId : string)
  (message : JsValue) : M () :=
  call_log ;; emit (ConvergeClientEvents.directMessage remotePeerId message).

Definition handleRemotePeerPresenceChanged (remotePeerId : string)
  (presence : JsValue) : M () :=
  call_log ;;
  emit (ConvergeClientEvents.peerPresenceChanged remotePeerId presence).

(** *** The client as a reactive system *)

(** The listeners [setupRemotePeer] registers on a handle. *)
Definition listener (ev : PeerEvent) : M () :=
  match ev with
  | ev_disconnect peerId => handlePeerDisconnected peerId
  | ev_connect peerId => handlePeerConnect peerId
  | ev_offer peerId offer => handleLocalOffer peerId offer
  | ev_answer peerId answer => handleLocalAnswer peerId answer
  | ev_candidate peerId candidate => handleLocalCandidate peerId candidate
  | ev_message peerId message => handleRemotePeerMessage peerId message
  | ev_directMessage peerId message =>
      handleRemotePeerDirectMessage peerId message
  | ev_presenceChanged peerId presence =>
      handleRemotePeerPresenceChanged peerId presence
  end.

(** A callback or method of the handle registered under [peerId]: the
    handle is mutated, then what it emits reaches the listeners. *)
Definition on_handle (peerId : string)
  (method : ConvergeRemotePeer.t
            → ConvergeRemotePeer.t * list PeerEvent * option JsError)
  : M () :=
  peer ← gets (λ this, get peerId (_peers this));
  match peer with
  | None => mret ()
  | Some peer =>
      let '(peer', evs, thrown) := method peer in
      modify (λ this, set_peers (set peerId peer' (_peers this)) this) ;;
      match thrown with
      | Some e => throw e
      | None => for_each evs listener
      end
  end.
End handlers.

(** The browser opens the channel [label] of a handle. *)
Definition open_channel (name : string) (this : ConvergeRemotePeer.t)
  : ConvergeRemotePeer.t :=
  match ConvergeRemotePeer.dataChannels this !! name with
  | Some channel =>
      {| ConvergeRemotePeer.id := ConvergeRemotePeer.id this;
         ConvergeRemotePeer.dataChannels :=
           <[name := {| label := label channel; readyState := open;
                        sent := sent channel |}]>
             (ConvergeRemotePeer.dataChannels this);
         ConvergeRemotePeer.presence := ConvergeRemotePeer.presence this;
         ConvergeRemotePeer.rtc := ConvergeRemotePeer.rtc this |}
  | None => this
  end.

(** Everything that can happen to a client: events of the signalling
    socket, calls of the public API, callbacks and methods of a handle in
    the peer set, and events still emitted by a handle that has been
    removed from it.  A candidate comes with what the browser's candidate
    constructor does on its text (see [_handleCandidate]). *)
Inductive Input :=
| signalling_connect (socketId : string)
| signalling_peers (peers : list string)
| signalling_offer (m : SignalMessage)
| signalling_answer (m : SignalMessage)
| signalling_candidate (m : SignalMessage) (refused : option JsError)
| signalling_peer_disconnected (peerId : string)
| call_broadcast (message : JsValue)
| call_updatePresence (presence : JsValue)
| call_directMessage (peerId : string) (message : JsValue)
| call_sendMessage (peerId : string) (message : JsValue)
| call_sendPresence (peerId : string) (presence : JsValue)
| rtc_offer_created (peerId : string) (offer : string)
| rtc_answer_created (peerId : string) (answer : string)
| rtc_icecandidate (peerId : string) (candidate : option string)
| rtc_iceconnectionstatechange (peerId : string) (state : string)
| rtc_signalingstatechange (peerId : string) (state : string)
| rtc_datachannel (peerId : string) (channel : RTCDataChannel)
| channel_onopen (peerId : string) (name : string)
| channel_onmessage (peerId : string) (data : JsValue)
| stale_handle (ev : PeerEvent).

(** The reaction of a client built with the logger option [log]. *)
Definition react_with (log : option Logger) (i : Input) : M () :=
  match i with
  | signalling_connect socketId =>
      modify (λ this,
        {| _peers := _peers this; _presence := _presence this;
           signalling_id := Some socketId; emitted := emitted this;
           signalling_emitted := signalling_emitted this |}) ;;
      handleSignallingConnect log
  | signalling_peers peers => handlePeers log peers
  | signalling_offer m => handleOffer log m
  | signalling_answer m => handleAnswer log m
  | signalling_candidate m refused => handleCandidate log m refused
  | signalling_peer_disconnected peerId => handlePeerDisconnected peerId
  | call_broadcast message => broadcast message
  | call_updatePresence presence => updatePresence presence
  | call_directMessage peerId message => directMessage peerId message
  | call_sendMessage peerId message =>
      on_handle log peerId (λ peer,
        let '(peer', thrown) := ConvergeRemotePeer.sendMessage message peer in
        (peer', [], thrown))
  | call_sendPresence peerId presence =>
      on_handle log peerId (λ peer,
        let '(peer', thrown) := ConvergeRemotePeer.sendPresence presence peer in
        (peer', [], thrown))
  | rtc_offer_created peerId offer =>
      on_handle log peerId (λ peer,
        (ConvergeRemotePeer.onLocalOffer offer peer, None))
  | rtc_answer_created peerId answer =>
      on_handle log peerId (λ peer,
        (ConvergeRemotePeer.onLocalAnswer answer peer, None))
  | rtc_icecandidate peerId candidate =>
      on_handle log peerId (λ peer,
        (peer, ConvergeRemotePeer.handleIceCandidate candidate peer, None))
  | rtc_iceconnectionstatechange peerId state =>
      on_handle log peerId (λ peer,
        (peer, ConvergeRemotePeer.handleIceConnectionStateChange state peer,
         None))
  | rtc_signalingstatechange peerId state =>
      on_handle log peerId (λ peer,
        (peer, ConvergeRemotePeer.handleSignalingStateChange state peer, None))
  | rtc_datachannel peerId channel =>
      on_handle log peerId (λ peer,
        (ConvergeRemotePeer._handleDataChannel channel peer, [], None))
  | channel_onopen peerId name =>
      on_handle log peerId (λ peer,
        let peer := open_channel name peer in
        (peer, ConvergeRemotePeer.handleDataChannelOpen peer, None))
  | channel_onmessage peerId data =>
      on_handle log peerId (ConvergeRemotePeer.handleDataChannelMessage data)
  | stale_handle ev => listener log ev
  end.

(** The state after a sequence of inputs; an exception ends the handler
    that threw, not the client. *)
Definition run_from_with (log : option Logger) (this : t)
  (inputs : list Input) : t :=
  fold_left (λ this i, (react_with log i this).1) inputs this.

(** A client built with a logger, as by the default options. *)
Definition react (i : Input) : M () := react_with (Some logger_given) i.

Definition run_from (this : t) (inputs : list Input) : t :=
  run_from_with (Some logger_given) this inputs.

(** What has been handed to the channel of the handle for [peerId]. *)
Definition delivered_to (peerId : string) (this : t) : list JsValue :=
  match get peerId (_peers this) with
  | Some peer => ConvergeRemotePeer.delivered peer
  | None => []
  end.

(** A computation keeps the identifiers of the peer set distinct. *)
Definition keeps_unique {A} (m : M A) : Prop :=
  ∀ this, NoDup (peers this) → NoDup (peers (m this).1).

End ConvergeClient.

(** ** Vocabulary for traces of the relay *)

Module RelayTraces.
Import Relay.

(** The connections that ask to join a room, in the order of their
    requests. *)
Definition joiners (tr : list (Socket * Request)) : list Socket :=
  omap (λ e, match e.2 with Join _ => Some e.1 | _ => None end) tr.

(** The requests that concern room membership, as opposed to the
    negotiation messages that are only forwarded. *)
Definition membership (e : Socket * Request) : bool :=
  match e.2 with
  | Join _ | Disconnect => true
  | _ => false
  end.

(** The notification sent to [peer] when [socket] has left. *)
Definition departure (socket peer : Socket) : Emission :=
  (id peer, PeerDisconnected (id socket)).

End RelayTraces.

(** ** Vocabulary for the state of the client *)

Module ClientFrames.
Import JsObject ConvergeClient.

(** A computation preserves a property of the client, whether it returns
    or throws. *)
Definition preserves {A} (P : t → Prop) (m : M A) : Prop :=
  ∀ this, P this → P (m this).1.

(** Every handle of the peer set is stored under its own identifier. *)
Definition own_ids (this : t) : Prop :=
  ∀ k handle,
    get k (_peers this) = Some handle → ConvergeRemotePeer.id handle = k.

(** The local presence is [v]. *)
Definition presence_is (v : JsValue) (this : t) : Prop := presence this = v.

End ClientFrames.

(** ** The earlier revision of the client

    [src/packages/client/src/index.ts] is the revision of the client before
    the [ProtocolHeading] enum.  Its peer set, its handlers of relay events
    and its [send] are those of the later revision ([send] is [_sendRaw]);
    it has no direct messages, broadcasts under the heading ["m"] and
    decodes ["p"] and ["m"]. *)

Module EarlierRevision.

Definition handleDataChannelMessage (data : JsValue)
  (this : ConvergeRemotePeer.t)
  : ConvergeRemotePeer.t * list PeerEvent * option JsError :=
  match destructure2 (JSON_parse data) with
  | inl e => (this, [], Some e)
  | inr (type, payload) =>
      match type with
      | JsString type =>
          if bool_decide (type = "p"%string) then
            ({| ConvergeRemotePeer.id := ConvergeRemotePeer.id this;
                ConvergeRemotePeer.dataChannels :=
                  ConvergeRemotePeer.dataChannels this;
                ConvergeRemotePeer.presence := payload;
                ConvergeRemotePeer.rtc := ConvergeRemotePeer.rtc this |},
             [ev_presenceChanged (ConvergeRemotePeer.id this) payload], None)
          else if bool_decide (type = "m"%string) then
            (this, [ev_message (ConvergeRemotePeer.id this) payload], None)
          else (this, [], None)
      | _ => (this, [], None)
      end
  end.

Definition broadcast (message : JsValue) : ConvergeClient.M () :=
  ConvergeClient.broadcastRaw "m" message.

Definition updatePresence (presence : JsValue) : ConvergeClient.M () :=
  ConvergeClient.updatePresence presence.

End EarlierRevision.

(** ** The signalling socket between a client and the relay

    Which handler an event reaches is fixed by the registrations
    [this.signalling.on(...)] in the constructor of the client and
    [socket.on(...)] in [attach]. *)

Module Wire.

(** The registrations of the client's constructor.  A candidate reaches
    the client as the input that pairs it with what the browser of that
    client makes of its text, which [refused] tells. *)
Definition to_client (refused : SignalMessage → option JsError)
  (ev : Relay.ServerEvent) : ConvergeClient.Input :=
  match ev with
  | Relay.Peers ids => ConvergeClient.signalling_peers ids
  | Relay.PeerDisconnected peer => ConvergeClient.signalling_peer_disconnected peer
  | Relay.Offer m => ConvergeClient.signalling_offer m
  | Relay.Answer m => ConvergeClient.signalling_answer m
  | Relay.Candidate m => ConvergeClient.signalling_candidate m (refused m)
  end.

(** What the relay receives for a negotiation message the client emits.
    Before the socket is connected [this.signalling.id] is undefined and
    the message carries no [sourcePeerId]; such a message is not
    represented. *)
Definition to_relay (e : ConvergeClient.SignallingEmit)
  : option Relay.Request :=
  match ConvergeClient.source e with
  | Some sourceId =>
      let m :=
        {| sdp := ConvergeClient.data e;
           peerId := ConvergeClient.target e;
           sourcePeerId := sourceId |} in
      if bool_decide (ConvergeClient.event e = "offer"%string)
      then Some (Relay.SendOffer m)
      else if bool_decide (ConvergeClient.event e = "answer"%string)
      then Some (Relay.SendAnswer m)
      else if bool_decide (ConvergeClient.event e = "candidate"%string)
      then Some (Relay.SendCandidate m)
      else None
  | None => None
  end.

(** The events the relay emits to the socket [socketId] on a request that
    is sent by [sender]. *)
Definition delivered_by_relay (refused : SignalMessage → option JsError)
  (sender : Relay.Socket) (req : Relay.Request)
  (st : Relay.State) (socketId : string) : list ConvergeClient.Input :=
  omap (λ em : Relay.Emission,
          if bool_decide (em.1 = socketId)
          then Some (to_client refused em.2) else None)
       (Relay.handle sender req st).2.

End Wire.

(** * Properties of the relay *)

Module RelayProofs.
Import JsArray Relay.

(** ** Arrays *)

Lemma splice1_subseteq {A} (start : Z) (l : list A) (x : A) :
  x ∈ splice1 start l → x ∈ l.
Proof. unfold splice1. apply list_elem_of_delete_inv. Qed.

(** ** One request *)

(** A join either goes through, or finds an inherited property and does
    nothing. *)
Lemma join_cases (room : string) (c : Socket) (st : State) :
  join room c st
  = (joined room c st, [(id c, Peers (map id (members room st)))])
  ∨ (rooms st !! room = None ∧ JsObject.inherited room = true
     ∧ join room c st = (st, [])).
Proof.
  unfold join, joined, members, JsObject.read.
  destruct (rooms st !! room) as [peers|]; [by left|].
  destruct (JsObject.inherited room); [by right | by left].
Qed.

Lemma join_goes_through (room : string) (c : Socket) (st : State) :
  JsObject.inherited room = false →
  join room c st
  = (joined room c st, [(id c, Peers (map id (members room st)))]).
Proof.
  intros Hname. destruct (join_cases room c st) as [H|(_ & H & _)]; [done|].
  congruence.
Qed.

Lemma members_joined (room r : string) (c : Socket) (st : State) :
  members r (joined room c st)
  = if decide (r = room) then members room st ++ [c] else members r st.
Proof.
  unfold members at 1, joined; simpl.
  destruct (decide (r = room)) as [->|Hne].
  - by rewrite lookup_insert_eq.
  - by rewrite lookup_insert_ne.
Qed.

Lemma disconnect_reads (c : Socket) (st : State) :
  rooms st !! property_key (reverseRoomLookup st !! id c) = None →
  disconnect c st = (st, []).
Proof.
  intros Hnone. unfold disconnect, JsObject.read. rewrite Hnone.
  by destruct (JsObject.inherited _).
Qed.

Lemma lookup_disconnect (c : Socket) (st : State) :
  reverseRoomLookup (disconnect c st).1 = reverseRoomLookup st.
Proof.
  destruct (rooms st !! property_key (reverseRoomLookup st !! id c))
    as [room|] eqn:Hroom; [|by rewrite disconnect_reads].
  unfold disconnect, JsObject.read. rewrite Hroom. by case_decide.
Qed.

(** A disconnect only ever removes members. *)
Lemma members_disconnect (c x : Socket) (r : string) (st : State) :
  x ∈ members r (disconnect c st).1 → x ∈ members r st.
Proof.
  set (k := property_key (reverseRoomLookup st !! id c)).
  destruct (rooms st !! k) as [room|] eqn:Hroom;
    [|by rewrite disconnect_reads].
  unfold disconnect, JsObject.read. fold k. rewrite Hroom.
  assert (Hsub : x ∈ members r
                       {| rooms := <[k := splice1 (indexOf c room) room]> (rooms st);
                          reverseRoomLookup := reverseRoomLookup st |}
                 → x ∈ members r st).
  { unfold members; simpl. destruct (decide (k = r)) as [<-|Hne].
    - rewrite lookup_insert_eq, Hroom; simpl. apply splice1_subseteq.
    - by rewrite lookup_insert_ne. }
  case_decide; [|exact Hsub].
  intros Hx. apply Hsub. revert Hx. unfold members; simpl.
  destruct (decide (id c = r)) as [<-|Hne].
  - rewrite lookup_delete_eq. simpl. by intros ?%elem_of_nil.
  - by rewrite lookup_delete_ne.
Qed.

Lemma handle_relay_only (c : Socket) (req : Request) (st : State) :
  (∀ room, req ≠ Join room) → req ≠ Disconnect → (handle c req st).1 = st.
Proof. destruct req; simpl; congruence. Qed.

(** ** What [disconnect] does in general *)

Lemma indexOf_from_absent {A} `{EqDecision A} (x : A) (l : list A) (i : Z) :
  x ∉ l → indexOf_from x l i = -1.
Proof.
  revert i. induction l as [|y l IH]; intros i Hx; simpl; [done|].
  apply not_elem_of_cons in Hx as [Hne Hx].
  rewrite decide_False by done. by apply IH.
Qed.

Lemma splice1_last {A} (l : list A) (x : A) : splice1 (-1) (l ++ [x]) = l.
Proof.
  unfold splice1. rewrite length_app. simpl.
  replace (Z.to_nat _) with (length l) by lia.
  induction l as [|y l IH]; simpl; [done|]. by rewrite IH.
Qed.

(** When the only member of a room disconnects, the room stays in the
    registry with an empty member array, unless the room happens to be
    named like the connection. *)
Lemma disconnect_sole_member (c : Socket) (room : string) (st : State) :
  reverseRoomLookup st !! id c = Some room →
  rooms st !! room = Some [c] →
  id c ≠ room →
  rooms (disconnect c st).1 !! room = Some [].
Proof.
  intros Hlook Hroom Hne. unfold disconnect, JsObject.read.
  rewrite Hlook. simpl. rewrite Hroom. unfold indexOf. simpl.
  destruct (decide (c = c)); [simpl|done].
  rewrite lookup_delete_ne by done. by rewrite lookup_insert_eq.
Qed.

(** When a connection whose reverse lookup names [room] is not a member of
    it, its disconnect removes the last member of [room]. *)
Lemma disconnect_absent_member (c x : Socket) (room : string)
  (l : list Socket) (st : State) :
  reverseRoomLookup st !! id c = Some room →
  rooms st !! room = Some (l ++ [x]) →
  c ∉ l ++ [x] →
  members room (disconnect c st).1 = l.
Proof.
  intros Hlook Hroom Habsent. unfold disconnect, JsObject.read.
  rewrite Hlook. simpl.
  rewrite Hroom. unfold indexOf. rewrite indexOf_from_absent by done.
  rewrite splice1_last. unfold members.
  case_decide as Hlen; simpl.
  - destruct l; [|done].
    destruct (decide (id c = room)) as [->|Hne].
    + by rewrite lookup_delete_eq.
    + rewrite lookup_delete_ne by done. by rewrite lookup_insert_eq.
  - by rewrite lookup_insert_eq.
Qed.

(** ** Traces *)

Lemma run_snoc (tr : list (Socket * Request)) (e : Socket * Request) :
  (run (tr ++ [e])).1 = (handle e.1 e.2 (run tr).1).1.
Proof.
  unfold run, run_from. rewrite fold_left_app. simpl.
  unfold step. by destruct (handle _ _ _).
Qed.



(** ** Join, disconnect and room membership *)

Lemma id_in_ids (c : Socket) (l : list Socket) : id c ∈ map id l ↔ c ∈ l.
Proof.
  split.
  - intros Hin. apply list_elem_of_In, in_map_iff in Hin as (x & Hid & Hx).
    apply list_elem_of_In in Hx. destruct x, c; simpl in *; by subst.
  - intros Hin. apply list_elem_of_In, in_map, list_elem_of_In, Hin.
Qed.

(** C1, as amended.  For a room whose name is not the name of a property
    that objects inherit, and for every connection, [join] emits to the
    joiner the identifiers of the members the room had immediately before
    the call, in order; the list contains the joiner's own identifier
    exactly when the joiner is already a member of that room; the joiner is
    appended to the room after the list has been taken. *)
Theorem join_returns_prior_members (st : State) (room : string) (c : Socket) :
  JsObject.inherited room = false →
  (join room c st).2 = [(id c, Peers (map id (members room st)))]
  ∧ (id c ∈ map id (members room st) ↔ c ∈ members room st)
  ∧ members room (join room c st).1 = members room st ++ [c].
Proof.
  intros Hname. rewrite (join_goes_through room c st Hname). cbn [fst snd].
  split; [done|]. split; [apply id_in_ids|].
  rewrite members_joined. by case_decide.
Qed.

Lemma join_returns_prior_members_witness :
  let a := {| id := "a" |} in
  let b := {| id := "b" |} in
  let st := (run [(a, Join "t")]).1 in
  (join "t" b st).2 = [("b"%string, Peers ["a"%string])]
  ∧ members "t" (join "t" b st).1 = [a; b]
  ∧ members "t" (join "t" a st).1 = [a; a].
Proof.
  intros a b st.
  destruct (join_returns_prior_members st "t" b eq_refl) as (Hout & _ & Hmem).
  destruct (join_returns_prior_members st "t" a eq_refl) as (_ & _ & Hagain).
  split; [exact Hout|]. split; [exact Hmem | exact Hagain].
Defined.

(** C1, counterexample.  A connection that joins a room it is already in is
    sent a member list that contains its own identifier; and a join of the
    room ["constructor"] is sent nothing and adds nobody. *)
Lemma join_again_lists_the_joiner :
  let a := {| id := "a" |} in
  let st := (run [(a, Join "t")]).1 in
  (join "t" a st).2 = [("a"%string, Peers ["a"%string])]
  ∧ join "constructor" a init = (init, []).
Proof. split; reflexivity. Qed.

(** C3, the code at the failing input.  After the only member of room
    ["t"] disconnects, the registry still holds ["t"], with an empty member
    array; the next join of ["t"] is sent an empty list and is appended to
    that same array. *)
Theorem disconnect_last_member_keeps_room :
  let a := {| id := "a" |} in
  let b := {| id := "b" |} in
  let st := (run [(a, Join "t"); (a, Disconnect)]).1 in
  rooms st !! "t" = Some []
  ∧ (join "t" b st).2 = [("b"%string, Peers [])].
Proof. split; reflexivity. Qed.

(** C4, the code at the failing input.  With [a], [b], [c] in room ["t"],
    a second disconnect of [a] removes [c] from the room and notifies
    [b]. *)
Theorem disconnect_twice_removes_another_member :
  let a := {| id := "a" |} in
  let b := {| id := "b" |} in
  let c := {| id := "c" |} in
  let st :=
    (run [(a, Join "t"); (b, Join "t"); (c, Join "t"); (a, Disconnect)]).1 in
  members "t" st = [b; c]
  ∧ members "t" (disconnect a st).1 = [b]
  ∧ (disconnect a st).2 = [("b"%string, PeerDisconnected "a")].
Proof. repeat split; reflexivity. Qed.




End RelayProofs.

(** * Properties of the client *)

(** ** Insertion-ordered dictionaries *)

Module JsObjectFacts.
Import JsObject.

Section dictionary.
Context {V : Type}.
Implicit Types (o : list (string * V)) (k : string) (v : V).

Lemma get_None o k : get k o = None ↔ k ∉ keys o.
Proof.
  induction o as [|[k' v'] o IH]; simpl.
  - split; [intros _ ?%elem_of_nil; done | done].
  - case_decide as Hk.
    + split; [done|]. intros Hn. exfalso. apply Hn. subst. apply list_elem_of_here.
    + rewrite IH. unfold keys; simpl. rewrite elem_of_cons. split.
      * intros Hn [Heq|Hin]; [by subst | done].
      * intros Hn Hin. apply Hn. by right.
Qed.

Lemma lookup_own o k v : get k o = Some v → lookup k o = own v.
Proof. unfold lookup. by intros ->. Qed.

Lemma lookup_undefined o k :
  get k o = None → inherited k = false → lookup k o = undefined.
Proof. unfold lookup. by intros -> ->. Qed.

Lemma lookup_from_prototype o k :
  get k o = None → inherited k = true → lookup k o = from_prototype.
Proof. unfold lookup. by intros -> ->. Qed.

(** *** Assignment to an existing property *)

Lemma get_replace_eq o k v v0 : get k o = Some v0 → get k (replace k v o) = Some v.
Proof.
  induction o as [|[k' v'] o IH]; simpl; [done|].
  case_decide; simpl; [by rewrite decide_True | by rewrite decide_False].
Qed.

Lemma get_replace_ne o k k' v : k ≠ k' → get k' (replace k v o) = get k' o.
Proof.
  intros Hne. induction o as [|[k0 v0] o IH]; simpl; [done|].
  case_decide as Hk; simpl.
  - subst k0. by rewrite !decide_False.
  - by rewrite IH.
Qed.

Lemma keys_replace o k v : keys (replace k v o) = keys o.
Proof.
  induction o as [|[k' v'] o IH]; simpl; [done|].
  case_decide as Hk; unfold keys in *; simpl; [by subst | by rewrite IH].
Qed.

(** *** A new array-index key *)

Lemma get_insert_index_eq o k v n :
  get k o = None → get k (insert_index n k v o) = Some v.
Proof.
  induction o as [|[k' v'] o IH]; simpl.
  - by rewrite decide_True.
  - case_decide as Hk; [done|]. intros Hget.
    destruct (array_index k') as [n'|]; [|simpl; by rewrite decide_True].
    destruct (n' <? n)%N; simpl.
    + rewrite decide_False by done. by apply IH.
    + by rewrite decide_True.
Qed.

Lemma get_insert_index_ne o k k' v n :
  k ≠ k' → get k' (insert_index n k v o) = get k' o.
Proof.
  intros Hne. induction o as [|[k0 v0] o IH]; simpl.
  - by rewrite decide_False.
  - destruct (array_index k0) as [n'|]; [|simpl; by rewrite decide_False].
    destruct (n' <? n)%N; simpl.
    + by rewrite IH.
    + by rewrite decide_False.
Qed.

Lemma keys_insert_index o k v n : keys (insert_index n k v o) ≡ₚ k :: keys o.
Proof.
  induction o as [|[k' v'] o IH]; simpl; [done|].
  destruct (array_index k') as [n'|]; [|done].
  destruct (n' <? n)%N; [|done].
  unfold keys in *; simpl. rewrite IH. apply Permutation_swap.
Qed.

(** *** A new key that is not an array index *)

Lemma get_app_new o k k' v :
  get k' (o ++ [(k, v)])
  = match get k' o with
    | Some v' => Some v'
    | None => if decide (k = k') then Some v else None
    end.
Proof.
  induction o as [|[k0 v0] o IH]; simpl.
  - by destruct (decide (k = k')).
  - by destruct (decide (k0 = k')).
Qed.

(** *** [o[k] = v] *)

Lemma get_set_eq o k v : get k (set k v o) = Some v.
Proof.
  unfold set. destruct (get k o) as [v0|] eqn:Hget.
  - by eapply get_replace_eq.
  - destruct (array_index k) as [n|].
    + by apply get_insert_index_eq.
    + rewrite get_app_new, Hget. by rewrite decide_True.
Qed.

Lemma get_set_ne o k k' v : k ≠ k' → get k' (set k v o) = get k' o.
Proof.
  intros Hne. unfold set. destruct (get k o) as [v0|] eqn:Hget.
  - by apply get_replace_ne.
  - destruct (array_index k) as [n|].
    + by apply get_insert_index_ne.
    + rewrite get_app_new. rewrite decide_False by done.
      by destruct (get k' o).
Qed.

Lemma get_del_ne o k k' : k ≠ k' → get k' (del k o) = get k' o.
Proof.
  intros Hne. induction o as [|[k0 v0] o IH]; simpl; [done|].
  case_decide as Hk; simpl.
  - subst k0. by rewrite decide_False.
  - by rewrite IH.
Qed.

Lemma get_del_eq o k : get k (del k o) = None.
Proof.
  induction o as [|[k0 v0] o IH]; simpl; [done|].
  case_decide as Hk; simpl; [done|]. by rewrite decide_False.
Qed.

(** Assigning to an existing property keeps the list of keys. *)
Lemma keys_set_present o k v v0 :
  get k o = Some v0 → keys (set k v o) = keys o.
Proof. intros Hget. unfold set. rewrite Hget. apply keys_replace. Qed.

(** Assigning to a new property that is not an array index appends its
    key. *)
Lemma keys_set_absent o k v :
  get k o = None → array_index k = None → keys (set k v o) = keys o ++ [k].
Proof.
  intros Hget Hindex. unfold set. rewrite Hget, Hindex.
  unfold keys. by rewrite map_app.
Qed.

(** Assigning to a new property adds its key, wherever it is enumerated. *)
Lemma keys_set_new o k v : get k o = None → keys (set k v o) ≡ₚ k :: keys o.
Proof.
  intros Hget. unfold set. rewrite Hget.
  destruct (array_index k) as [n|]; [apply keys_insert_index|].
  unfold keys. rewrite map_app. simpl.
  by rewrite Permutation_app_comm.
Qed.

Lemma keys_del_subseteq o k k' : k' ∈ keys (del k o) → k' ∈ keys o.
Proof.
  induction o as [|[k0 v0] o IH]; simpl; [done|].
  unfold keys in *; case_decide; simpl; rewrite ?elem_of_cons.
  - intros Hin. right. by apply IH.
  - intros [->|Hin]; [by left | right; by apply IH].
Qed.

Lemma NoDup_keys_set o k v : NoDup (keys o) → NoDup (keys (set k v o)).
Proof.
  intros Hnd. destruct (get k o) as [v0|] eqn:Hget.
  - by rewrite (keys_set_present _ _ _ _ Hget).
  - rewrite (keys_set_new _ _ _ Hget).
    apply NoDup_cons. split; [by apply get_None|done].
Qed.

Lemma NoDup_keys_del o k : NoDup (keys o) → NoDup (keys (del k o)).
Proof.
  induction o as [|[k0 v0] o IH]; simpl; [done|].
  unfold keys in *; simpl. rewrite NoDup_cons. intros [Hk0 Hnd].
  case_decide; simpl; [by apply IH|].
  apply NoDup_cons. split; [|by apply IH].
  intros Hin. by apply Hk0, (keys_del_subseteq _ k).
Qed.
End dictionary.

End JsObjectFacts.

(** ** Handles *)

Module RemotePeerFacts.
Import ConvergeRemotePeer.

Lemma _sendRaw_connected (message : JsValue) (this : t) :
  connected this = true →
  ∃ this', _sendRaw message this = (this', None)
           ∧ delivered this' = delivered this ++ [message]
           ∧ connected this' = true
           ∧ id this' = id this
           ∧ presence this' = presence this.
Proof.
  unfold connected, _sendRaw, delivered, channel_send.
  destruct (dataChannels this !! DATA_CHANNEL_LABEL) as [channel|]; [|done].
  destruct (readyState channel); try done. intros _.
  eexists. split; [reflexivity|]. simpl. by rewrite lookup_insert_eq.
Qed.

Lemma _sendRaw_no_channel (message : JsValue) (this : t) :
  dataChannels this !! DATA_CHANNEL_LABEL = None →
  _sendRaw message this = (this, Some (Error "no data channel")).
Proof. unfold _sendRaw. by intros ->. Qed.

Lemma _sendRaw_not_connected (message : JsValue) (this : t) :
  connected this = false →
  ∃ e, _sendRaw message this = (this, Some e)
       ∧ (dataChannels this !! DATA_CHANNEL_LABEL = None
          → e = Error "no data channel").
Proof.
  unfold connected, _sendRaw, channel_send.
  destruct (dataChannels this !! DATA_CHANNEL_LABEL) as [channel|].
  - destruct (readyState channel); try done; intros _;
      (eexists; split; [reflexivity | done]).
  - intros _. eexists. split; [reflexivity | done].
Qed.

(** A failed send leaves the handle as it was. *)
Lemma _sendRaw_thrown (message : JsValue) (this this' : t) (e : JsError) :
  _sendRaw message this = (this', Some e) → this' = this.
Proof.
  unfold _sendRaw, channel_send.
  destruct (dataChannels this !! DATA_CHANNEL_LABEL) as [channel|].
  - destruct (readyState channel); congruence.
  - congruence.
Qed.

End RemotePeerFacts.

(** ** The peer set *)

Module ClientProofs.
Import JsObject JsObjectFacts ConvergeClient.

(** *** Unfolding computations *)

Lemma bind_eq {A B} (m : M A) (f : A → M B) (this : t) :
  (m ≫= f) this
  = match m this with
    | (this', inl e) => (this', inl e)
    | (this', inr x) => f x this'
    end.
Proof. reflexivity. Qed.

Lemma bind_gets {A B} (f : t → A) (k : A → M B) (this : t) :
  (gets f ≫= k) this = k (f this) this.
Proof. reflexivity. Qed.

Lemma bind_modify {B} (f : t → t) (k : () → M B) (this : t) :
  (modify f ≫= k) this = k () (f this).
Proof. reflexivity. Qed.

Lemma peers_set_peers (o : list (string * ConvergeRemotePeer.t)) (this : t) :
  peers (set_peers o this) = keys o.
Proof. reflexivity. Qed.

Lemma keys_for_values {V} (body : V → V * option JsError)
  (o : list (string * V)) :
  keys (for_values body o).1 = keys o.
Proof.
  induction o as [|[k v] o IH]; simpl; [done|].
  destruct (body v) as [v' [e|]]; simpl; [done|].
  destruct (for_values body o) as [o' thrown]; simpl in *.
  unfold keys in *; simpl. by rewrite IH.
Qed.

(** *** The call of the logger *)

Lemma logged {A} (l : Logger) (m : M A) (this : t) :
  (call_log (Some l) ;; m) this = m this.
Proof. reflexivity. Qed.

Lemma not_logged {A} (m : M A) (this : t) :
  (call_log None ;; m) this = (this, inl (not_a_function "this.log")).
Proof. reflexivity. Qed.

(** *** Distinct identifiers are preserved by every handler *)

Lemma keeps_ret {A} (x : A) : keeps_unique (mret x).
Proof. by intros this. Qed.

Lemma keeps_throw {A} (e : JsError) : keeps_unique (@throw A e).
Proof. by intros this. Qed.

Lemma keeps_gets {A} (f : t → A) : keeps_unique (gets f).
Proof. by intros this. Qed.

Lemma keeps_call_log (log : option Logger) : keeps_unique (call_log log).
Proof. destruct log; by intros this. Qed.

Lemma keeps_bind {A B} (m : M A) (f : A → M B) :
  keeps_unique m → (∀ x, keeps_unique (f x)) → keeps_unique (m ≫= f).
Proof.
  intros Hm Hf this Hnd. rewrite bind_eq.
  specialize (Hm this Hnd).
  destruct (m this) as [this' [e|x]]; simpl in *; [done|]. by apply Hf.
Qed.

Lemma keeps_for_each {A} (l : list A) (body : A → M ()) :
  (∀ x, keeps_unique (body x)) → keeps_unique (for_each l body).
Proof.
  intros Hbody. induction l as [|x l IH]; simpl.
  - apply keeps_ret.
  - apply keeps_bind; [apply Hbody | by intros _].
Qed.

Lemma keeps_emit (ev : ConvergeClientEvents.t) : keeps_unique (emit ev).
Proof. by intros this. Qed.

Lemma keeps_signalling_emit (event data target : string) :
  keeps_unique (signalling_emit event data target).
Proof. by intros this. Qed.

Lemma keeps_modify_same (f : t → t) :
  (∀ this, _peers (f this) = _peers this) → keeps_unique (modify f).
Proof. intros Hf this Hnd. unfold peers; simpl. by rewrite Hf. Qed.

Lemma keeps_set (k : string) (v : ConvergeRemotePeer.t) :
  keeps_unique (modify (λ this, set_peers (set k v (_peers this)) this)).
Proof. intros this Hnd. simpl. rewrite peers_set_peers. by apply NoDup_keys_set. Qed.

Lemma keeps_del (k : string) :
  keeps_unique (modify (λ this, set_peers (del k (_peers this)) this)).
Proof. intros this Hnd. simpl. rewrite peers_set_peers. by apply NoDup_keys_del. Qed.

Lemma keeps_mutate_peer (k : string)
  (method : ConvergeRemotePeer.t → ConvergeRemotePeer.t) :
  keeps_unique (mutate_peer k method).
Proof.
  intros this Hnd. unfold mutate_peer; simpl.
  destruct (get k (_peers this)); [|done].
  rewrite peers_set_peers. by apply NoDup_keys_set.
Qed.

Lemma keeps_broadcastRaw (type : string) (message : JsValue) :
  keeps_unique (broadcastRaw type message).
Proof.
  intros this Hnd. unfold broadcastRaw.
  pose proof (keys_for_values
    (ConvergeRemotePeer._sendRaw
       (JSON_stringify (JsArr [JsString type; message]))) (_peers this)) as Hk.
  destruct (for_values _ _) as [o' thrown]; simpl in *.
  rewrite peers_set_peers. by rewrite Hk.
Qed.

Create HintDb unique_handles.
#[local] Hint Resolve keeps_ret keeps_throw keeps_gets keeps_call_log
  keeps_emit keeps_signalling_emit keeps_set keeps_del keeps_mutate_peer
  keeps_broadcastRaw : unique_handles.

(** One step through a computation: a bind, a loop, or a case
    distinction. *)
Ltac keeps_step :=
  first
    [ solve [auto with unique_handles]
    | solve [apply keeps_modify_same; intro; reflexivity]
    | match goal with
      | |- keeps_unique (_ ≫= _) => apply keeps_bind
      | |- keeps_unique (for_each _ _) => apply keeps_for_each
      | |- keeps_unique (match ?x with _ => _ end) => destruct x
      | |- ∀ _, _ => intro
      end ].

Lemma keeps_setupRemotePeer (peerId : string) :
  keeps_unique (setupRemotePeer peerId).
Proof. unfold setupRemotePeer. repeat keeps_step. Qed.

Lemma keeps_handlePeerConnect (log : option Logger) (peerId : string) :
  keeps_unique (handlePeerConnect log peerId).
Proof. unfold handlePeerConnect. repeat keeps_step. Qed.

Lemma keeps_handlePeerDisconnected (peerId : string) :
  keeps_unique (handlePeerDisconnected peerId).
Proof. unfold handlePeerDisconnected. repeat keeps_step. Qed.

#[local] Hint Resolve keeps_setupRemotePeer keeps_handlePeerConnect
  keeps_handlePeerDisconnected : unique_handles.

Lemma keeps_listener (log : option Logger) (ev : PeerEvent) :
  keeps_unique (listener log ev).
Proof.
  destruct ev; cbn [listener];
    unfold handleLocalOffer, handleLocalAnswer, handleLocalCandidate,
      handleRemotePeerMessage, handleRemotePeerDirectMessage,
      handleRemotePeerPresenceChanged;
    repeat keeps_step.
Qed.

#[local] Hint Resolve keeps_listener : unique_handles.

Lemma keeps_on_handle (log : option Logger) (peerId : string)
  (method : ConvergeRemotePeer.t
            → ConvergeRemotePeer.t * list PeerEvent * option JsError) :
  keeps_unique (on_handle log peerId method).
Proof.
  unfold on_handle. apply keeps_bind; [auto with unique_handles|].
  intros [peer|]; [|auto with unique_handles].
  destruct (method peer) as [[peer' evs] thrown].
  repeat keeps_step.
Qed.

#[local] Hint Resolve keeps_on_handle : unique_handles.



(** *** Sending *)

Lemma for_values_app {V} (body : V → V * option JsError)
  (before rest : list (string * V)) :
  Forall (λ kv, (body kv.2).2 = None) before →
  for_values body (before ++ rest)
  = (map (λ kv, (kv.1, (body kv.2).1)) before ++ (for_values body rest).1,
     (for_values body rest).2).
Proof.
  induction 1 as [|[k v] before Hv _ IH]; simpl in *.
  - by destruct (for_values body rest).
  - destruct (body v) as [v' thrown]; simpl in *; subst thrown.
    by rewrite IH.
Qed.

Lemma presence_broadcastRaw (type : string) (message : JsValue) (this : t) :
  presence (broadcastRaw type message this).1 = presence this.
Proof. unfold broadcastRaw. by destruct (for_values _ _). Qed.

(** *** Setting up a handle *)

Lemma setupRemotePeer_existing (peerId : string) (this : t)
  (handle : ConvergeRemotePeer.t) :
  get peerId (_peers this) = Some handle →
  setupRemotePeer peerId this = (this, inr (Some handle)).
Proof.
  intros Hget. unfold setupRemotePeer. rewrite bind_gets.
  by rewrite (lookup_own _ _ _ Hget).
Qed.

Lemma setupRemotePeer_fresh (peerId : string) (this : t) :
  get peerId (_peers this) = None →
  inherited peerId = false →
  setupRemotePeer peerId this
  = (set_peers (set peerId (ConvergeRemotePeer.new peerId) (_peers this)) this,
     inr (Some (ConvergeRemotePeer.new peerId))).
Proof.
  intros Hget Hname. unfold setupRemotePeer. rewrite bind_gets.
  by rewrite (lookup_undefined _ _ Hget Hname).
Qed.

Lemma setupRemotePeer_inherited (peerId : string) (this : t) :
  get peerId (_peers this) = None →
  inherited peerId = true →
  setupRemotePeer peerId this = (this, inr None).
Proof.
  intros Hget Hname. unfold setupRemotePeer. rewrite bind_gets.
  by rewrite (lookup_from_prototype _ _ Hget Hname).
Qed.

Lemma call_on_existing (peerId : string)
  (method : ConvergeRemotePeer.t → ConvergeRemotePeer.t) (e : JsError)
  (this : t) (handle : ConvergeRemotePeer.t) :
  get peerId (_peers this) = Some handle →
  call_on_setup peerId method e this
  = (set_peers (set peerId (method handle) (_peers this)) this, inr ()).
Proof.
  intros Hget. unfold call_on_setup. rewrite bind_eq.
  rewrite (setupRemotePeer_existing _ _ _ Hget).
  unfold mutate_peer, modify. by rewrite Hget.
Qed.

Lemma call_on_fresh (peerId : string)
  (method : ConvergeRemotePeer.t → ConvergeRemotePeer.t) (e : JsError)
  (this : t) :
  get peerId (_peers this) = None →
  inherited peerId = false →
  call_on_setup peerId method e this
  = (set_peers
       (set peerId (method (ConvergeRemotePeer.new peerId))
          (set peerId (ConvergeRemotePeer.new peerId) (_peers this))) this,
     inr ()).
Proof.
  intros Hget Hname. unfold call_on_setup. rewrite bind_eq.
  rewrite (setupRemotePeer_fresh _ _ Hget Hname).
  unfold mutate_peer, modify. cbn [_peers set_peers].
  by rewrite get_set_eq.
Qed.

Lemma call_on_inherited (peerId : string)
  (method : ConvergeRemotePeer.t → ConvergeRemotePeer.t) (e : JsError)
  (this : t) :
  get peerId (_peers this) = None →
  inherited peerId = true →
  call_on_setup peerId method e this = (this, inl e).
Proof.
  intros Hget Hname. unfold call_on_setup. rewrite bind_eq.
  by rewrite (setupRemotePeer_inherited _ _ Hget Hname).
Qed.

Lemma handleOffer_eq (l : Logger) (m : SignalMessage) :
  handleOffer (Some l) m
  = call_on_setup (sourcePeerId m) (ConvergeRemotePeer._handleOffer m)
      (not_a_function "peer._handleOffer").
Proof. reflexivity. Qed.

Lemma handlePeers_cons (l : Logger) (peerId : string) (ids : list string)
  (this : t) :
  handlePeers (Some l) (peerId :: ids) this
  = match call_on_setup peerId ConvergeRemotePeer._connect
            (not_a_function "peer._connect") this with
    | (this', inl e) => (this', inl e)
    | (this', inr _) => handlePeers (Some l) ids this'
    end.
Proof. reflexivity. Qed.

Lemma handlePeers_nil (l : Logger) (this : t) :
  handlePeers (Some l) [] this = (this, inr ()).
Proof. reflexivity. Qed.

(** *** The peer set, routing and the envelopes *)




(** C6, as amended.  In a client built with a logger, for a sender [s]
    whose identifier is not the name of an inherited property: an inbound
    offer from [s] reaches the handle for [s], which is created first when
    there is none.  An inbound answer from [s] reaches the handle for [s]
    when there is one; so does an inbound candidate, unless the browser
    refuses its text, in which case the handler throws and the handle is
    left as it was.  When there is no handle for [s], an answer or a
    candidate is dropped and no handle is created. *)
Theorem relay_events_reach_handles (this : t) (m : SignalMessage) :
  let s := sourcePeerId m in
  (∀ handle,
     get s (_peers this) = Some handle →
     ((react (signalling_offer m) this).2 = inr ()
      ∧ get s (_peers (react (signalling_offer m) this).1)
        = Some (ConvergeRemotePeer._handleOffer m handle))
     ∧ ((react (signalling_answer m) this).2 = inr ()
        ∧ get s (_peers (react (signalling_answer m) this).1)
          = Some (ConvergeRemotePeer._handleAnswer m handle))
     ∧ ((react (signalling_candidate m None) this).2 = inr ()
        ∧ get s (_peers (react (signalling_candidate m None) this).1)
          = Some (ConvergeRemotePeer.rtc_call (addIceCandidate (sdp m)) handle))
     ∧ ∀ e, (react (signalling_candidate m (Some e)) this).2 = inl e
            ∧ get s (_peers (react (signalling_candidate m (Some e)) this).1)
              = Some handle)
  ∧ (get s (_peers this) = None →
     inherited s = false →
     ((react (signalling_offer m) this).2 = inr ()
      ∧ get s (_peers (react (signalling_offer m) this).1)
        = Some (ConvergeRemotePeer._handleOffer m (ConvergeRemotePeer.new s)))
     ∧ react (signalling_answer m) this = (this, inr ())
     ∧ ∀ refused, react (signalling_candidate m refused) this = (this, inr ())).
Proof.
  intros s. unfold react. cbn [react_with]. split.
  - intros handle Hget. split; [|split; [|split]].
    + rewrite handleOffer_eq. fold s.
      rewrite (call_on_existing _ _ _ _ _ Hget). cbn [fst snd _peers set_peers].
      split; [done | apply get_set_eq].
    + unfold handleAnswer. rewrite logged, bind_gets. fold s.
      rewrite (lookup_own _ _ _ Hget). unfold mutate_peer, modify.
      rewrite Hget. cbn [fst snd _peers set_peers].
      split; [done | apply get_set_eq].
    + unfold handleCandidate. rewrite logged, bind_gets. fold s.
      rewrite (lookup_own _ _ _ Hget). cbn [ConvergeRemotePeer._handleCandidate].
      rewrite bind_modify. cbn [fst snd _peers set_peers mret M_ret].
      split; [done | apply get_set_eq].
    + intros e. unfold handleCandidate. rewrite logged, bind_gets. fold s.
      rewrite (lookup_own _ _ _ Hget). cbn [ConvergeRemotePeer._handleCandidate].
      rewrite bind_modify. cbn [fst snd _peers set_peers throw].
      split; [done | apply get_set_eq].
  - intros Hget Hname. split; [|split].
    + rewrite handleOffer_eq. fold s.
      rewrite (call_on_fresh _ _ _ _ Hget Hname). cbn [fst snd _peers set_peers].
      split; [done | apply get_set_eq].
    + unfold handleAnswer. rewrite logged, bind_gets. fold s.
      by rewrite (lookup_undefined _ _ Hget Hname).
    + intros refused. unfold handleCandidate. rewrite logged, bind_gets. fold s.
      by rewrite (lookup_undefined _ _ Hget Hname).
Qed.

Lemma relay_events_reach_handles_witness :
  let m := {| sdp := "x"; peerId := "me"; sourcePeerId := "r" |} in
  let this := run_from new [signalling_peers ["r"]] in
  (react (signalling_answer m) this).2 = inr ()
  ∧ (ConvergeRemotePeer.rtc
       <$> get "r" (_peers (react (signalling_answer m) this).1))
    = Some [createDataChannel "data"; createOffer;
            setRemoteDescription "answer" "x"]
  ∧ react (signalling_candidate m None) new = (new, inr ()).
Proof.
  intros m this.
  destruct (get "r" (_peers this)) as [handle|] eqn:Hget;
    [|vm_compute in Hget; discriminate Hget].
  destruct (relay_events_reach_handles this m) as (Hsome & _).
  destruct (Hsome handle Hget) as (_ & (Hr & Hh) & _).
  destruct (relay_events_reach_handles new m) as (_ & Hnone).
  destruct (Hnone eq_refl eq_refl) as (_ & _ & Hdrop).
  split; [exact Hr|]. split; [|exact (Hdrop None)].
  change (sourcePeerId m) with "r"%string in Hh. rewrite Hh.
  vm_compute in Hget. injection Hget as <-. reflexivity.
Defined.

(** C6, counterexample.  A candidate, and likewise an answer, from a peer
    that has no handle is dropped: the client is left exactly as it was,
    with no handle for the sender.  Nor does every offer reach a handle: in
    a client built without a logger the handler throws before it creates
    one, and for the sender ["constructor"] no handle is created.  A
    candidate whose text the browser refuses is not added to the handle. *)
Lemma candidate_without_handle_is_dropped :
  let m := {| sdp := "c"; peerId := "me"; sourcePeerId := "r" |} in
  let m' := {| sdp := "c"; peerId := "me"; sourcePeerId := "constructor" |} in
  let e := {| name := "SyntaxError"; message := "Unexpected token c" |} in
  let this := run_from new [signalling_peers ["r"]] in
  (react (signalling_candidate m None) new = (new, inr ())
   ∧ react (signalling_answer m) new = (new, inr ())
   ∧ get "r" (_peers (react (signalling_candidate m None) new).1) = None)
  ∧ ((react_with None (signalling_offer m) new).1 = new
     ∧ (react_with None (signalling_offer m) new).2 ≠ inr ())
  ∧ ((react (signalling_offer m') new).1 = new
     ∧ (react (signalling_offer m') new).2 ≠ inr ())
  ∧ ((react (signalling_candidate m (Some e)) this).2 = inl e
     ∧ get "r" (_peers (react (signalling_candidate m (Some e)) this).1)
       = get "r" (_peers this)).
Proof. repeat split; try reflexivity; discriminate. Qed.

(** What [directMessage] does for an identifier that is not the name of an
    inherited property: without a handle it throws the error
    [Peer <id> not connected] and leaves the client untouched; in every
    case the handles of all other peers are left as they were; and when the
    target has a handle with an open channel the call succeeds and hands
    the envelope [["d", message]] to that channel. *)
Lemma directMessage_unknown_or_target_only (this : t) (peerId : string)
  (message : JsValue) :
  let envelope :=
    JSON_stringify (JsArr [JsString ProtocolHeading.DirectMessage; message]) in
  let result := directMessage peerId message this in
  (get peerId (_peers this) = None →
     inherited peerId = false →
     result = (this, inl (Error ("Peer " +:+ peerId +:+ " not connected"))))
  ∧ (∀ other, other ≠ peerId →
       get other (_peers result.1) = get other (_peers this))
  ∧ peers result.1 = peers this
  ∧ (∀ handle,
       get peerId (_peers this) = Some handle →
       ConvergeRemotePeer.connected handle = true →
       result.2 = inr ()
       ∧ delivered_to peerId result.1
         = ConvergeRemotePeer.delivered handle ++ [envelope]).
Proof.
  intros envelope result. unfold result, directMessage.
  rewrite bind_gets. unfold lookup.
  destruct (get peerId (_peers this)) as [handle|] eqn:Hget.
  - split; [done|]. fold envelope.
    destruct (ConvergeRemotePeer._sendRaw envelope handle)
      as [handle' thrown] eqn:Hsend.
    rewrite bind_modify.
    set (this' := set_peers (set peerId handle' (_peers this)) this).
    assert (Hpeers : _peers (match thrown with
                             | Some e => throw e
                             | None => mret ()
                             end this').1
                     = set peerId handle' (_peers this))
      by (by destruct thrown).
    split; [|split].
    + intros other Hne. rewrite Hpeers. by apply get_set_ne.
    + unfold peers. rewrite Hpeers. by eapply keys_set_present.
    + intros ? [= <-] Hconn.
      destruct (RemotePeerFacts._sendRaw_connected envelope handle Hconn)
        as (h & Hh & Hdel & _).
      rewrite Hh in Hsend. injection Hsend as <- <-.
      split; [done|]. unfold delivered_to. rewrite Hpeers.
      by rewrite get_set_eq.
  - split; [by intros _ ->|].
    destruct (inherited peerId); (split; [done|]); (split; [done|]);
      by intros ? [=].
Qed.

(** C5, the code at the failing input.  For the identifier
    ["constructor"], which has no handle, [directMessage] does not throw
    the error [Peer constructor not connected] that it throws for other
    identifiers without a handle: the guard is passed and the call throws a
    [TypeError]. *)
Theorem directMessage_inherited_name_is_not_unknown :
  let result := directMessage "constructor" (JsString "hi") new in
  get "constructor" (_peers new) = None
  ∧ result.1 = new
  ∧ (∃ e, result.2 = inl e ∧ name e = "TypeError"%string)
  ∧ result.2 ≠ inl (Error "Peer constructor not connected")
  ∧ (directMessage "x" (JsString "hi") new).2
    = inl (Error "Peer x not connected").
Proof.
  repeat split; try reflexivity; [by eexists | discriminate].
Qed.

(** C10.  [updatePresence v] assigns [v] to the local presence and only
    then sends: the envelopes go out from a client whose presence is
    already [v], and whatever the sends do, in particular when one of them
    throws, the [presence] getter returns [v] afterwards. *)
Theorem updatePresence_stores_before_sending (this : t) (v : JsValue) :
  presence (updatePresence v this).1 = v
  ∧ updatePresence v this
    = broadcastRaw ProtocolHeading.Presence v
        {| _peers := _peers this; _presence := v;
           signalling_id := signalling_id this; emitted := emitted this;
           signalling_emitted := signalling_emitted this |}.
Proof.
  assert (Heq : updatePresence v this
                = broadcastRaw ProtocolHeading.Presence v
                    {| _peers := _peers this; _presence := v;
                       signalling_id := signalling_id this;
                       emitted := emitted this;
                       signalling_emitted := signalling_emitted this |})
    by reflexivity.
  split; [|exact Heq].
  rewrite Heq. by rewrite presence_broadcastRaw.
Qed.

(** The presence is stored although the send to a handle that has no data
    channel throws. *)
Example updatePresence_when_send_throws :
  let this := run_from new [signalling_offer
                              {| sdp := "o"; peerId := "me";
                                 sourcePeerId := "r" |}] in
  let result := updatePresence (JsString "here") this in
  result.2 = inl (Error "no data channel")
  ∧ presence result.1 = JsString "here".
Proof. split; reflexivity. Qed.

(** C2, as amended.  [broadcast] hands the envelope [["b", message]] to
    the handles of the peer set in order, as long as they are connected.  If
    all of them are, the call succeeds.  Otherwise it throws at the first
    handle that is not connected ([no data channel] when that handle has no
    channel at all), and that handle and all handles after it receive
    nothing.  Nothing else in the client changes: nothing is queued for
    handles that connect later. *)
Theorem broadcast_stops_at_first_unconnected (this : t) (message : JsValue)
  (before rest : list (string * ConvergeRemotePeer.t)) :
  _peers this = before ++ rest →
  Forall (λ kv, ConvergeRemotePeer.connected kv.2 = true) before →
  match rest with
  | [] => True
  | (_, handle) :: _ => ConvergeRemotePeer.connected handle = false
  end →
  let envelope :=
    JSON_stringify (JsArr [JsString ProtocolHeading.Broadcast; message]) in
  let result := broadcast message this in
  ∃ before',
    result.1 = set_peers (before' ++ rest) this
    ∧ Forall2 (λ kv kv',
                 kv'.1 = kv.1
                 ∧ ConvergeRemotePeer.delivered kv'.2
                   = ConvergeRemotePeer.delivered kv.2 ++ [envelope])
        before before'
    ∧ match rest with
      | [] => result.2 = inr ()
      | (_, handle) :: _ =>
          ∃ e, result.2 = inl e
               ∧ (ConvergeRemotePeer.dataChannels handle
                    !! ConvergeRemotePeer.DATA_CHANNEL_LABEL = None
                  → e = Error "no data channel")
      end.
Proof.
  intros Hpeers Hbefore Hrest envelope result.
  set (body := ConvergeRemotePeer._sendRaw envelope).
  exists (map (λ kv, (kv.1, (body kv.2).1)) before).
  assert (Hok : Forall (λ kv, (body kv.2).2 = None) before).
  { eapply Forall_impl; [exact Hbefore|]. intros [k h] Hconn; simpl in *.
    destruct (RemotePeerFacts._sendRaw_connected envelope h Hconn)
      as (h' & Hh & _).
    unfold body. by rewrite Hh. }
  assert (Hrun : for_values body (_peers this)
                 = (map (λ kv, (kv.1, (body kv.2).1)) before
                      ++ (for_values body rest).1,
                    (for_values body rest).2))
    by (rewrite Hpeers; by apply for_values_app).
  assert (Hdelivered :
    Forall2 (λ kv kv',
               kv'.1 = kv.1
               ∧ ConvergeRemotePeer.delivered kv'.2
                 = ConvergeRemotePeer.delivered kv.2 ++ [envelope])
      before (map (λ kv, (kv.1, (body kv.2).1)) before)).
  { clear Hpeers Hok Hrun. induction Hbefore as [|[k h] before Hconn _ IH];
      simpl; constructor; [|exact IH].
    destruct (RemotePeerFacts._sendRaw_connected envelope h Hconn)
      as (h' & Hh & Hdel & _).
    unfold body. rewrite Hh. by split. }
  unfold result, broadcast, broadcastRaw. fold envelope. fold body.
  rewrite Hrun. simpl.
  destruct rest as [|[k handle] after]; simpl.
  - split; [done|]. split; [exact Hdelivered | done].
  - destruct (RemotePeerFacts._sendRaw_not_connected envelope handle Hrest)
      as (e & He & Hno).
    assert (He' : body handle = (handle, Some e)) by exact He.
    rewrite He'. simpl.
    split; [done|]. split; [exact Hdelivered|]. by exists e.
Qed.

Lemma broadcast_stops_at_first_unconnected_witness :
  let this :=
    run_from new
      [signalling_peers ["q"]; channel_onopen "q" "data";
       signalling_offer {| sdp := "o"; peerId := "me"; sourcePeerId := "r" |};
       signalling_peers ["s"]] in
  let result := broadcast (JsString "hi") this in
  peers this = ["q"; "r"; "s"]
  ∧ result.2 = inl (Error "no data channel")
  ∧ delivered_to "q" result.1
    = [JsArr [JsString "p"; JsNull]; JsArr [JsString "b"; JsString "hi"]].
Proof.
  intros this result.
  destruct (broadcast_stops_at_first_unconnected this (JsString "hi")
              (take 1 (_peers this)) (drop 1 (_peers this)))
    as (before' & Hstate & Hdelivered & Hthrown).
  - symmetry. apply take_drop.
  - vm_compute. repeat constructor.
  - reflexivity.
  - split; [reflexivity|].
    destruct Hthrown as (e & He & Hno). split.
    + fold result in He. rewrite He. f_equal. apply Hno. reflexivity.
    + reflexivity.
Defined.

(** C2, counterexample.  The peer set holds the handle for [r], which has
    no data channel yet, followed by the handle for [q], which is
    connected.  The broadcast throws at [r] and [q] receives nothing. *)
Lemma broadcast_throws_before_connected_peer :
  let this :=
    run_from new
      [signalling_offer {| sdp := "o"; peerId := "me"; sourcePeerId := "r" |};
       signalling_peers ["q"]; channel_onopen "q" "data"] in
  let result := broadcast (JsString "hi") this in
  peers this = ["r"; "q"]
  ∧ (ConvergeRemotePeer.connected <$> get "q" (_peers this)) = Some true
  ∧ result.2 = inl (Error "no data channel")
  ∧ delivered_to "q" result.1 = delivered_to "q" this
  ∧ JsArr [JsString "b"; JsString "hi"] ∉ delivered_to "q" result.1.
Proof.
  repeat split; try reflexivity.
  vm_compute. intros H. apply list_elem_of_singleton in H. discriminate H.
Qed.

(** The envelopes of [broadcast], [updatePresence], [directMessage] and
    [sendPresence] are two-element arrays headed by ["b"], ["p"], ["d"]
    and ["p"]; the decoder turns each heading into its event. *)
Lemma protocol_headings_decoded (body : JsValue) (this : ConvergeRemotePeer.t) :
  let payload :=
    match body with JsUndefined => JsNull | _ => JSON_stringify body end in
  let envelope heading := JSON_stringify (JsArr [JsString heading; body]) in
  envelope ProtocolHeading.Presence = JsArr [JsString "p"; payload]
  ∧ envelope ProtocolHeading.Broadcast = JsArr [JsString "b"; payload]
  ∧ envelope ProtocolHeading.DirectMessage = JsArr [JsString "d"; payload]
  ∧ (ConvergeRemotePeer.handleDataChannelMessage
       (envelope ProtocolHeading.Presence) this).1.2
    = [ev_presenceChanged (ConvergeRemotePeer.id this) payload]
  ∧ (ConvergeRemotePeer.handleDataChannelMessage
       (envelope ProtocolHeading.Broadcast) this).1.2
    = [ev_message (ConvergeRemotePeer.id this) payload]
  ∧ (ConvergeRemotePeer.handleDataChannelMessage
       (envelope ProtocolHeading.DirectMessage) this).1.2
    = [ev_directMessage (ConvergeRemotePeer.id this) payload].
Proof. repeat split; reflexivity. Qed.

(** C7, the code at the failing input.  [sendMessage] on a connected
    handle sends an envelope headed by ["m"], which is none of ["p"],
    ["b"], ["d"]; the decoder of the receiving handle emits no event for
    it. *)
Theorem sendMessage_heading_is_not_decoded :
  let channel := {| label := "data"; readyState := open; sent := [] |} in
  let sender :=
    ConvergeRemotePeer.setupDataChannel channel (ConvergeRemotePeer.new "q") in
  let result := ConvergeRemotePeer.sendMessage (JsString "hi") sender in
  let receiver := ConvergeRemotePeer.new "me" in
  result.2 = None
  ∧ ConvergeRemotePeer.delivered result.1 = [JsArr [JsString "m"; JsString "hi"]]
  ∧ ConvergeRemotePeer.handleDataChannelMessage
      (JsArr [JsString "m"; JsString "hi"]) receiver
    = (receiver, [], None).
Proof. repeat split; reflexivity. Qed.

End ClientProofs.

(** * Further properties of the relay *)

Module RelayMore.
Import JsArray Relay RelayTraces.

(** ** Arrays *)

Lemma indexOf_from_first {A} `{EqDecision A} (x : A) (l1 l2 : list A) (i : Z) :
  x ∉ l1 → indexOf_from x (l1 ++ x :: l2) i = i + Z.of_nat (length l1).
Proof.
  revert i. induction l1 as [|y l1 IH]; intros i Hx; simpl.
  - rewrite decide_True by done. lia.
  - apply not_elem_of_cons in Hx as [Hne Hx].
    rewrite decide_False by done. rewrite IH by done. lia.
Qed.

Lemma splice1_first {A} `{EqDecision A} (x : A) (l1 l2 : list A) :
  x ∉ l1 → splice1 (indexOf x (l1 ++ x :: l2)) (l1 ++ x :: l2) = l1 ++ l2.
Proof.
  intros Hx. unfold indexOf. rewrite indexOf_from_first by done.
  unfold splice1. rewrite length_app. simpl.
  replace (Z.to_nat _) with (length l1).
  - apply delete_middle.
  - destruct (0 + Z.of_nat (length l1) <? 0) eqn:Hlt; lia.
Qed.

(** ** Disconnecting a member *)

(** The state and the emissions after the disconnect of a connection that
    is in the room its reverse lookup names. *)
Lemma disconnect_present (c : Socket) (room : string) (l1 l2 : list Socket)
  (st : State) :
  reverseRoomLookup st !! id c = Some room →
  rooms st !! room = Some (l1 ++ c :: l2) →
  c ∉ l1 →
  members room (disconnect c st).1 = l1 ++ l2
  ∧ (disconnect c st).2 = map (departure c) (l1 ++ l2)
  ∧ ∀ r, r ≠ room → l1 ++ l2 ≠ [] ∨ r ≠ id c →
         rooms (disconnect c st).1 !! r = rooms st !! r.
Proof.
  intros Hlook Hroom Hfirst. unfold disconnect, JsObject.read.
  rewrite Hlook. simpl.
  rewrite Hroom. rewrite splice1_first by done.
  case_decide as Hlen; simpl.
  - apply length_zero_iff_nil in Hlen. rewrite Hlen.
    split; [|split; [done|]].
    + unfold members; simpl.
      destruct (decide (id c = room)) as [->|Hne].
      * by rewrite lookup_delete_eq.
      * rewrite lookup_delete_ne by done. by rewrite lookup_insert_eq.
    + intros r Hr [Hne|Hne]; [done|].
      rewrite lookup_delete_ne by done. by rewrite lookup_insert_ne.
  - split; [|split; [done|]].
    + unfold members; simpl. by rewrite lookup_insert_eq.
    + intros r Hr _. by rewrite lookup_insert_ne.
Qed.



(** X2.  For a room whose name is not the name of a property that objects
    inherit: a connection that joins the room, not being in it yet, and
    then disconnects leaves the membership of that room as it was before
    the join, and exactly the members it found there are notified of its
    departure. *)
Theorem join_then_disconnect_restores_room (c : Socket) (room : string)
  (st : State) :
  JsObject.inherited room = false →
  c ∉ members room st →
  let st' := (join room c st).1 in
  members room (disconnect c st').1 = members room st
  ∧ (disconnect c st').2 = map (departure c) (members room st).
Proof.
  intros Hname Hnew st'. unfold st'.
  rewrite (RelayProofs.join_goes_through room c st Hname). cbn [fst].
  destruct (disconnect_present c room (members room st) [] (joined room c st))
    as (Hmem & Hout & _).
  - unfold joined; simpl. by rewrite lookup_insert_eq.
  - unfold joined; simpl. by rewrite lookup_insert_eq.
  - exact Hnew.
  - rewrite app_nil_r in Hmem, Hout. by split.
Qed.

Lemma join_then_disconnect_restores_room_witness :
  let a := {| id := "a" |} in
  let b := {| id := "b" |} in
  let st := (run [(a, Join "t")]).1 in
  members "t" (disconnect b (join "t" b st).1).1 = [a]
  ∧ (disconnect b (join "t" b st).1).2 = [("a"%string, PeerDisconnected "b")].
Proof.
  intros a b st.
  apply (join_then_disconnect_restores_room b "t" st); [reflexivity|].
  intros H. vm_compute in H. apply list_elem_of_singleton in H. discriminate H.
Defined.

(** ** Traces *)

Lemma step_eq (acc : State * list Emission) (e : Socket * Request) :
  step acc e
  = ((handle e.1 e.2 acc.1).1, acc.2 ++ (handle e.1 e.2 acc.1).2).
Proof. unfold step. by destruct (handle e.1 e.2 acc.1). Qed.

Lemma fold_step_emissions (tr : list (Socket * Request)) (st : State)
  (out : list Emission) :
  fold_left step tr (st, out)
  = ((fold_left step tr (st, [])).1, out ++ (fold_left step tr (st, [])).2).
Proof.
  revert st out. induction tr as [|e tr IH]; intros st out; simpl.
  - by rewrite app_nil_r.
  - rewrite !step_eq; simpl.
    rewrite (IH _ (out ++ _)), (IH _ (handle e.1 e.2 st).2).
    simpl. by rewrite app_assoc.
Qed.

Lemma run_from_cons (st : State) (e : Socket * Request)
  (tr : list (Socket * Request)) :
  run_from st (e :: tr)
  = ((run_from (handle e.1 e.2 st).1 tr).1,
     (handle e.1 e.2 st).2 ++ (run_from (handle e.1 e.2 st).1 tr).2).
Proof.
  unfold run_from; simpl. rewrite step_eq; simpl.
  apply fold_step_emissions.
Qed.

(** X3.  For a room whose name is not the name of a property that objects
    inherit: when the connections [cs] join the room one after the other,
    each is sent the identifiers of the members the room had at the start
    followed by those of the connections that joined before it, in order,
    and the room ends up with all of them appended. *)
Theorem joins_accumulate (room : string) (cs : list Socket) (st : State) :
  JsObject.inherited room = false →
  let result := run_from st (map (λ c, (c, Join room)) cs) in
  members room result.1 = members room st ++ cs
  ∧ result.2
    = imap (λ i c, (id c, Peers (map id (members room st ++ take i cs)))) cs.
Proof.
  intros Hname. revert st. induction cs as [|c cs IH]; intros st.
  - simpl. by rewrite app_nil_r.
  - cbn zeta. rewrite map_cons, run_from_cons. cbn [fst snd handle].
    rewrite (RelayProofs.join_goes_through room c st Hname). cbn [fst snd].
    destruct (IH (joined room c st)) as [Hmem Hout].
    rewrite RelayProofs.members_joined, decide_True in Hmem, Hout by done.
    split.
    + rewrite Hmem. by rewrite <- app_assoc.
    + rewrite Hout, imap_cons. simpl. rewrite app_nil_r. f_equal.
      apply imap_ext. intros i x _. simpl. by rewrite <- app_assoc.
Qed.

Lemma joins_accumulate_witness :
  let a := {| id := "a" |} in
  let b := {| id := "b" |} in
  let c := {| id := "c" |} in
  let result :=
    run_from (run [(a, Join "t")]).1 [(b, Join "t"); (c, Join "t")] in
  members "t" result.1 = [a; b; c]
  ∧ result.2 = [("b"%string, Peers ["a"%string]);
                ("c"%string, Peers ["a"%string; "b"%string])].
Proof.
  intros a b c result.
  exact (joins_accumulate "t" [b; c] (run [(a, Join "t")]).1 eq_refl).
Defined.

(** Where the contents of the two dictionaries come from. *)
Lemma rooms_disconnect_is_Some (c : Socket) (r : string) (st : State) :
  is_Some (rooms (disconnect c st).1 !! r) → is_Some (rooms st !! r).
Proof.
  set (k := property_key (reverseRoomLookup st !! id c)).
  destruct (rooms st !! k) as [room|] eqn:Hroom;
    [|by rewrite RelayProofs.disconnect_reads].
  unfold disconnect, JsObject.read. fold k. rewrite Hroom.
  assert (Hins : is_Some (<[k := splice1 (indexOf c room) room]> (rooms st) !! r)
                 → is_Some (rooms st !! r)).
  { destruct (decide (k = r)) as [<-|Hne].
    - by rewrite Hroom.
    - by rewrite lookup_insert_ne. }
  case_decide; simpl; [|exact Hins].
  intros Hr. apply Hins.
  destruct (decide (id c = r)) as [<-|Hne].
  - rewrite lookup_delete_eq in Hr. by destruct Hr.
  - by rewrite lookup_delete_ne in Hr.
Qed.

Lemma provenance (tr : list (Socket * Request)) :
  (∀ r c, c ∈ members r (run tr).1 → (c, Join r) ∈ tr)
  ∧ (∀ c r, reverseRoomLookup (run tr).1 !! id c = Some r → (c, Join r) ∈ tr)
  ∧ (∀ r, is_Some (rooms (run tr).1 !! r) → ∃ c, (c, Join r) ∈ tr).
Proof.
  induction tr as [|[c req] tr (Hmem & Hlook & Hrooms)] using rev_ind.
  - unfold run, members; simpl. split; [|split].
    + intros r c. rewrite lookup_empty; simpl. by intros ?%elem_of_nil.
    + intros c r. by rewrite lookup_empty.
    + intros r. rewrite lookup_empty. by intros [? [=]].
  - rewrite RelayProofs.run_snoc; cbn [fst snd].
    assert (Hweak : ∀ e, e ∈ tr → e ∈ tr ++ [(c, req)])
      by (intros; apply elem_of_app; by left).
    assert (Hlast : (c, req) ∈ tr ++ [(c, req)])
      by (apply elem_of_app; right; by apply list_elem_of_singleton).
    destruct req as [room| | | |]; cbn [handle];
      try (split; [|split]; [by eauto | by eauto |];
           intros r [c' Hc']%Hrooms; eauto).
    + (* Join *)
      destruct (RelayProofs.join_cases room c (run tr).1) as [->|(_ & _ & ->)];
        cbn [fst];
        [|split; [|split]; [by eauto | by eauto |];
          intros r [c' Hc']%Hrooms; eauto].
      split; [|split].
      * intros r c'. rewrite RelayProofs.members_joined.
        case_decide as Hr; [subst r|by eauto].
        intros [Hin| ->%list_elem_of_singleton]%elem_of_app; eauto.
      * intros c' r. unfold joined; simpl.
        destruct (decide (id c' = id c)) as [Heq|Hne].
        -- assert (c' = c) as -> by (destruct c', c; simpl in *; congruence).
           rewrite lookup_insert_eq. by intros [= <-].
        -- rewrite lookup_insert_ne by done. eauto.
      * intros r. unfold joined; simpl.
        destruct (decide (room = r)) as [<-|Hne]; [by eauto|].
        rewrite lookup_insert_ne by done.
        intros [c' Hc']%Hrooms. eauto.
    + (* Disconnect *)
      split; [|split].
      * intros r c' Hin%RelayProofs.members_disconnect. eauto.
      * intros c' r. rewrite RelayProofs.lookup_disconnect. eauto.
      * intros r [c' Hc']%rooms_disconnect_is_Some%Hrooms. eauto.
Qed.

Lemma joined_in_joiners (tr : list (Socket * Request)) (c : Socket)
  (r : string) :
  (c, Join r) ∈ tr → c ∈ joiners tr.
Proof.
  intros Hin. unfold joiners. apply list_elem_of_omap.
  by exists (c, Join r).
Qed.

(** X5.  The relay never makes a connection a member of a room it did not
    ask to join: every member of a room has issued a join for that room
    earlier in the trace. *)
Theorem members_have_joined (tr : list (Socket * Request)) (c : Socket)
  (r : string) :
  c ∈ members r (run tr).1 → (c, Join r) ∈ tr.
Proof. apply provenance. Qed.

Lemma members_have_joined_witness :
  let a := {| id := "a" |} in
  let b := {| id := "b" |} in
  let tr := [(a, Join "t"); (b, Join "t"); (a, Disconnect)] in
  b ∈ members "t" (run tr).1 ∧ (b, Join "t") ∈ tr.
Proof.
  intros a b tr.
  assert (Hin : b ∈ members "t" (run tr).1) by (vm_compute; apply list_elem_of_here).
  split; [exact Hin|]. exact (members_have_joined tr b "t" Hin).
Defined.

Lemma members_disconnect_sublist (c : Socket) (r : string) (st : State) :
  members r (disconnect c st).1 `sublist_of` members r st.
Proof.
  set (k := property_key (reverseRoomLookup st !! id c)).
  destruct (rooms st !! k) as [room|] eqn:Hroom;
    [|by rewrite RelayProofs.disconnect_reads].
  unfold disconnect, JsObject.read. fold k. rewrite Hroom.
  assert (Hsub : members r
                   {| rooms := <[k := splice1 (indexOf c room) room]> (rooms st);
                      reverseRoomLookup := reverseRoomLookup st |}
                 `sublist_of` members r st).
  { unfold members; simpl. destruct (decide (k = r)) as [<-|Hne].
    - rewrite lookup_insert_eq, Hroom; simpl. apply sublist_delete.
    - by rewrite lookup_insert_ne. }
  case_decide; [|exact Hsub].
  unfold members in *; simpl in *.
  destruct (decide (id c = r)) as [<-|Hne].
  - rewrite lookup_delete_eq. apply sublist_nil_l.
  - by rewrite lookup_delete_ne.
Qed.

(** X4.  If no connection issues more than one join, no room ever lists a
    connection twice. *)
Theorem rooms_have_no_duplicates (tr : list (Socket * Request)) (r : string) :
  NoDup (joiners tr) → NoDup (members r (run tr).1).
Proof.
  revert r. induction tr as [|[c req] tr IH] using rev_ind; intros r Hnd.
  - unfold run, members; simpl. rewrite lookup_empty. apply NoDup_nil_2.
  - unfold joiners in Hnd. rewrite omap_app in Hnd. fold (joiners tr) in Hnd.
    apply NoDup_app in Hnd as (Hnd & Hdisj & _).
    rewrite RelayProofs.run_snoc; cbn [fst snd].
    destruct req as [room| | | |]; cbn [handle]; try by apply IH.
    + destruct (RelayProofs.join_cases room c (run tr).1) as [->|(_ & _ & ->)];
        cbn [fst]; [|by apply IH].
      rewrite RelayProofs.members_joined. case_decide; [subst r|by apply IH].
      apply NoDup_app. split; [by apply IH|]. split; [|apply NoDup_singleton].
      intros x Hx ->%list_elem_of_singleton.
      apply (Hdisj c).
      * eapply joined_in_joiners, (proj1 (provenance tr)), Hx.
      * simpl. apply list_elem_of_here.
    + eapply sublist_NoDup; [by apply IH | apply members_disconnect_sublist].
Qed.

Lemma rooms_have_no_duplicates_witness :
  let a := {| id := "a" |} in
  let b := {| id := "b" |} in
  let tr := [(a, Join "t"); (b, Join "t"); (a, Disconnect); (a, Disconnect)] in
  NoDup (joiners tr) ∧ NoDup (members "t" (run tr).1).
Proof.
  intros a b tr.
  assert (Hnd : NoDup (joiners tr))
    by (apply (bool_decide_unpack _); vm_compute; exact I).
  split; [exact Hnd|]. exact (rooms_have_no_duplicates tr "t" Hnd).
Defined.

(** X6.  Forwarding never touches the registry: the state the relay
    reaches is the one it reaches on the join and disconnect requests of
    the trace alone. *)
Theorem forwarding_leaves_registry (tr : list (Socket * Request)) :
  (run tr).1 = (run (filter (λ e, membership e = true) tr)).1.
Proof.
  induction tr as [|[c req] tr IH] using rev_ind; [done|].
  rewrite filter_app, RelayProofs.run_snoc; cbn [fst snd].
  destruct req as [room| | | |];
    (rewrite filter_cons_True by done) || (rewrite filter_cons_False by done);
    rewrite filter_nil, ?app_nil_r, ?RelayProofs.run_snoc; cbn [fst snd handle];
    by rewrite IH.
Qed.

(** X7.  The disconnect of a connection that never joined a room changes
    nothing and notifies nobody, provided no room is named ["undefined"]. *)
Theorem disconnect_without_join_is_ignored (tr : list (Socket * Request))
  (c : Socket) :
  c ∉ joiners tr →
  (∀ c', (c', Join "undefined") ∉ tr) →
  disconnect c (run tr).1 = ((run tr).1, []).
Proof.
  intros Hnever Hname.
  destruct (provenance tr) as (_ & Hlook & Hrooms).
  apply RelayProofs.disconnect_reads.
  destruct (reverseRoomLookup (run tr).1 !! id c) as [r|] eqn:Hr.
  { exfalso. eapply Hnever, joined_in_joiners, Hlook, Hr. }
  simpl.
  destruct (rooms (run tr).1 !! "undefined") as [room|] eqn:Hroom; [|done].
  destruct (Hrooms "undefined"%string) as [c' Hc']; [by rewrite Hroom|].
  by apply Hname in Hc'.
Qed.

Lemma disconnect_without_join_is_ignored_witness :
  let a := {| id := "a" |} in
  let b := {| id := "b" |} in
  let tr := [(a, Join "t")] in
  disconnect b (run tr).1 = ((run tr).1, []).
Proof.
  intros a b tr. apply (disconnect_without_join_is_ignored tr b).
  - intros H. vm_compute in H. apply list_elem_of_singleton in H. discriminate H.
  - intros c' H. apply list_elem_of_singleton in H. discriminate H.
Defined.

End RelayMore.

(** * Further properties of the client *)

Module ClientMore.
Import JsObject JsObjectFacts ConvergeClient ClientFrames.

(** ** Properties preserved along a computation *)

Section preserves.
Context (P : t → Prop).

Lemma preserves_ret {A} (x : A) : preserves P (mret x).
Proof. by intros this. Qed.

Lemma preserves_throw {A} (e : JsError) : preserves P (@throw A e).
Proof. by intros this. Qed.

Lemma preserves_gets {A} (f : t → A) : preserves P (gets f).
Proof. by intros this. Qed.

Lemma preserves_modify (f : t → t) :
  (∀ this, P this → P (f this)) → preserves P (modify f).
Proof. intros Hf this HP. by apply Hf. Qed.

Lemma preserves_bind {A B} (m : M A) (f : A → M B) :
  preserves P m → (∀ x, preserves P (f x)) → preserves P (m ≫= f).
Proof.
  intros Hm Hf this HP. rewrite ClientProofs.bind_eq.
  specialize (Hm this HP).
  destruct (m this) as [this' [e|x]]; simpl in *; [done|]. by apply Hf.
Qed.

Lemma preserves_for_each {A} (l : list A) (body : A → M ()) :
  (∀ x, preserves P (body x)) → preserves P (for_each l body).
Proof.
  intros Hbody. induction l as [|x l IH]; simpl.
  - apply preserves_ret.
  - apply preserves_bind; [apply Hbody | by intros _].
Qed.

Lemma preserves_run_from_with (log : option Logger) (inputs : list Input)
  (this : t) :
  (∀ i, preserves P (react_with log i)) →
  P this → P (run_from_with log this inputs).
Proof.
  intros Hreact. revert this.
  induction inputs as [|i inputs IH]; intros this HP; [done|].
  simpl. apply IH. by apply Hreact.
Qed.
End preserves.

(** ** Handles are stored under their own identifier *)

Lemma get_del_Some {V} (k k' : string) (v : V) (o : list (string * V)) :
  get k' (del k o) = Some v → get k' o = Some v.
Proof.
  destruct (decide (k = k')) as [->|Hne].
  - by rewrite get_del_eq.
  - by rewrite get_del_ne.
Qed.

Lemma get_for_values {V} (body : V → V * option JsError) (k : string)
  (v' : V) (o : list (string * V)) :
  get k (for_values body o).1 = Some v' →
  ∃ v, get k o = Some v ∧ (v' = v ∨ v' = (body v).1).
Proof.
  induction o as [|[k0 v0] o IH]; simpl; [done|].
  destruct (body v0) as [v0' [e|]] eqn:Hbody; simpl.
  - case_decide; [|by eauto].
    intros [= <-]. exists v0. split; [done|]. right. by rewrite Hbody.
  - destruct (for_values body o) as [o' thrown]; simpl in *.
    case_decide; [|by eauto].
    intros [= <-]. exists v0. split; [done|]. right. by rewrite Hbody.
Qed.

Lemma id__sendRaw (message : JsValue) (handle : ConvergeRemotePeer.t) :
  ConvergeRemotePeer.id (ConvergeRemotePeer._sendRaw message handle).1
  = ConvergeRemotePeer.id handle.
Proof.
  unfold ConvergeRemotePeer._sendRaw.
  destruct (ConvergeRemotePeer.dataChannels handle !! _) as [channel|]; [|done].
  by destruct (channel_send message channel) as [channel' [e|]].
Qed.

Lemma id_handleDataChannelMessage (data : JsValue)
  (handle : ConvergeRemotePeer.t) :
  ConvergeRemotePeer.id
    (ConvergeRemotePeer.handleDataChannelMessage data handle).1.1
  = ConvergeRemotePeer.id handle.
Proof.
  unfold ConvergeRemotePeer.handleDataChannelMessage.
  destruct (destructure2 (JSON_parse data)) as [e|[type payload]]; [done|].
  destruct type; try done. by repeat case_bool_decide.
Qed.

Lemma id_open_channel (name : string) (handle : ConvergeRemotePeer.t) :
  ConvergeRemotePeer.id (open_channel name handle)
  = ConvergeRemotePeer.id handle.
Proof.
  unfold open_channel.
  by destruct (ConvergeRemotePeer.dataChannels handle !! name).
Qed.

Lemma own_ids_same (f : t → t) :
  (∀ this, _peers (f this) = _peers this) →
  preserves own_ids (modify f).
Proof.
  intros Hf. apply preserves_modify. intros this Hown k handle.
  rewrite Hf. apply Hown.
Qed.

Lemma own_ids_set (k : string) (handle : ConvergeRemotePeer.t) :
  ConvergeRemotePeer.id handle = k →
  preserves own_ids
    (modify (λ this, set_peers (set k handle (_peers this)) this)).
Proof.
  intros Hid. apply preserves_modify. intros this Hown k' handle'. simpl.
  destruct (decide (k = k')) as [<-|Hne].
  - rewrite get_set_eq. by intros [= <-].
  - rewrite get_set_ne by done. apply Hown.
Qed.

Lemma own_ids_del (k : string) :
  preserves own_ids (modify (λ this, set_peers (del k (_peers this)) this)).
Proof.
  apply preserves_modify. intros this Hown k' handle'. simpl.
  intros Hget%get_del_Some. by apply Hown.
Qed.

Lemma own_ids_mutate_peer (k : string)
  (method : ConvergeRemotePeer.t → ConvergeRemotePeer.t) :
  (∀ handle, ConvergeRemotePeer.id (method handle) = ConvergeRemotePeer.id handle) →
  preserves own_ids (mutate_peer k method).
Proof.
  intros Hid this Hown. unfold mutate_peer; simpl.
  destruct (get k (_peers this)) as [handle|] eqn:Hget; [|done].
  apply (own_ids_set k (method handle)); [|done].
  rewrite Hid. by apply Hown.
Qed.

Lemma own_ids_broadcastRaw (type : string) (message : JsValue) :
  preserves own_ids (broadcastRaw type message).
Proof.
  intros this Hown k handle'. unfold broadcastRaw.
  pose proof (get_for_values
    (ConvergeRemotePeer._sendRaw
       (JSON_stringify (JsArr [JsString type; message]))) k handle'
    (_peers this)) as Hget.
  destruct (for_values _ _) as [o' thrown]; simpl in *.
  intros (handle & Hh & [->| ->])%Hget.
  - by apply Hown.
  - rewrite id__sendRaw. by apply Hown.
Qed.

Lemma own_ids_emit (ev : ConvergeClientEvents.t) : preserves own_ids (emit ev).
Proof. by apply own_ids_same. Qed.

Lemma own_ids_signalling_emit (event data target : string) :
  preserves own_ids (signalling_emit event data target).
Proof. by apply own_ids_same. Qed.

Lemma own_ids_setupRemotePeer (peerId : string) :
  preserves own_ids (setupRemotePeer peerId).
Proof.
  unfold setupRemotePeer. apply preserves_bind; [apply preserves_gets|].
  intros [handle| |]; [apply preserves_ret..|].
  apply preserves_bind; [by apply own_ids_set | intros _; apply preserves_ret].
Qed.

Lemma own_ids_call_on_setup (peerId : string)
  (method : ConvergeRemotePeer.t → ConvergeRemotePeer.t) (e : JsError) :
  (∀ handle, ConvergeRemotePeer.id (method handle) = ConvergeRemotePeer.id handle) →
  preserves own_ids (call_on_setup peerId method e).
Proof.
  intros Hid. unfold call_on_setup.
  apply preserves_bind; [apply own_ids_setupRemotePeer|].
  intros [handle|]; [by apply own_ids_mutate_peer | apply preserves_throw].
Qed.

Lemma own_ids_call_log (log : option Logger) :
  preserves own_ids (call_log log).
Proof. destruct log; [apply preserves_ret | apply preserves_throw]. Qed.

Lemma own_ids_handlePeerDisconnected (peerId : string) :
  preserves own_ids (handlePeerDisconnected peerId).
Proof.
  unfold handlePeerDisconnected.
  apply preserves_bind; [apply own_ids_del | intros _; apply own_ids_emit].
Qed.

(** Sending to the handle stored under [peerId] and storing it back. *)
Ltac own_ids_after_send peerId handle :=
  match goal with
  | Hown : own_ids ?this, Hget : get peerId (_peers ?this) = Some handle
    |- context [ConvergeRemotePeer._sendRaw ?m handle] =>
      let Hid := fresh "Hid" in
      let Hown' := fresh "Hown" in
      pose proof (id__sendRaw m handle) as Hid;
      destruct (ConvergeRemotePeer._sendRaw m handle) as [handle' thrown];
      simpl in Hid;
      rewrite ClientProofs.bind_modify;
      assert (Hown' : own_ids (set_peers (set peerId handle' (_peers this)) this))
        by (apply (own_ids_set peerId handle'); [rewrite Hid; by apply Hown | done]);
      by destruct thrown
  end.

Lemma own_ids_handlePeerConnect (log : option Logger) (peerId : string) :
  preserves own_ids (handlePeerConnect log peerId).
Proof.
  unfold handlePeerConnect.
  apply preserves_bind; [apply own_ids_call_log|]. intros _.
  apply preserves_bind; [apply own_ids_emit|]. intros _ this Hown.
  rewrite ClientProofs.bind_gets. unfold lookup.
  destruct (get peerId (_peers this)) as [handle|] eqn:Hget;
    [|by destruct (inherited peerId)].
  rewrite ClientProofs.bind_gets. cbv zeta.
  own_ids_after_send peerId handle.
Qed.

Lemma own_ids_logged (log : option Logger) (m : M ()) :
  preserves own_ids m → preserves own_ids (call_log log ;; m).
Proof.
  intros Hm. apply preserves_bind; [apply own_ids_call_log | by intros _].
Qed.

Lemma own_ids_listener (log : option Logger) (ev : PeerEvent) :
  preserves own_ids (listener log ev).
Proof.
  destruct ev; cbn [listener];
    unfold handleLocalOffer, handleLocalAnswer, handleLocalCandidate,
      handleRemotePeerMessage, handleRemotePeerDirectMessage,
      handleRemotePeerPresenceChanged;
    auto using own_ids_handlePeerDisconnected, own_ids_handlePeerConnect,
      own_ids_logged, own_ids_emit, own_ids_signalling_emit.
Qed.

Lemma own_ids_on_handle (log : option Logger) (peerId : string)
  (method : ConvergeRemotePeer.t
            → ConvergeRemotePeer.t * list PeerEvent * option JsError) :
  (∀ handle, ConvergeRemotePeer.id (method handle).1.1
             = ConvergeRemotePeer.id handle) →
  preserves own_ids (on_handle log peerId method).
Proof.
  intros Hid this Hown. unfold on_handle. rewrite ClientProofs.bind_gets.
  destruct (get peerId (_peers this)) as [handle|] eqn:Hget; [|done].
  specialize (Hid handle).
  destruct (method handle) as [[handle' evs] thrown]; simpl in Hid.
  apply preserves_bind; [| |done].
  - apply own_ids_set. rewrite Hid. by apply Hown.
  - intros _. destruct thrown; [apply preserves_throw|].
    apply preserves_for_each, own_ids_listener.
Qed.

Lemma own_ids_react_with (log : option Logger) (i : Input) :
  preserves own_ids (react_with log i).
Proof.
  destruct i as [socketId|ids|m|m|m refused|pid|message|v|pid message
                 |pid message|pid v|pid offer|pid answer|pid cand|pid state
                 |pid state|pid channel|pid name|pid data|ev];
    cbn [react_with].
  - apply preserves_bind; [by apply own_ids_same|].
    intros _. unfold handleSignallingConnect. apply own_ids_logged.
    apply preserves_bind; [apply preserves_gets | intros; apply own_ids_emit].
  - unfold handlePeers. apply own_ids_logged, preserves_for_each.
    intros peerId. by apply own_ids_call_on_setup.
  - unfold handleOffer. by apply own_ids_logged, own_ids_call_on_setup.
  - unfold handleAnswer. apply own_ids_logged.
    apply preserves_bind; [apply preserves_gets|].
    intros [handle| |];
      [by apply own_ids_mutate_peer | apply preserves_throw
       | apply preserves_ret].
  - unfold handleCandidate. apply own_ids_logged. intros this Hown.
    rewrite ClientProofs.bind_gets. unfold lookup.
    destruct (get (sourcePeerId m) (_peers this)) as [handle|] eqn:Hget;
      [|by destruct (inherited (sourcePeerId m))].
    assert (Hid : ConvergeRemotePeer.id
                    (ConvergeRemotePeer._handleCandidate m refused handle).1
                  = ConvergeRemotePeer.id handle)
      by (by destruct refused).
    destruct (ConvergeRemotePeer._handleCandidate m refused handle)
      as [handle' thrown].
    simpl in Hid. rewrite ClientProofs.bind_modify.
    assert (Hown' : own_ids
                      (set_peers (set (sourcePeerId m) handle' (_peers this))
                         this))
      by (apply (own_ids_set (sourcePeerId m) handle');
          [rewrite Hid; by apply Hown | done]).
    by destruct thrown.
  - apply own_ids_handlePeerDisconnected.
  - apply own_ids_broadcastRaw.
  - unfold updatePresence.
    apply preserves_bind; [by apply own_ids_same|].
    intros _. apply own_ids_broadcastRaw.
  - intros this Hown. unfold directMessage. rewrite ClientProofs.bind_gets.
    unfold lookup.
    destruct (get pid (_peers this)) as [handle|] eqn:Hget;
      [|by destruct (inherited pid)].
    own_ids_after_send pid handle.
  - apply own_ids_on_handle. intros handle.
    unfold ConvergeRemotePeer.sendMessage.
    pose proof (id__sendRaw
      (JSON_stringify (JsArr [JsString "m"; message])) handle) as Hid.
    by destruct (ConvergeRemotePeer._sendRaw _ handle).
  - apply own_ids_on_handle. intros handle.
    unfold ConvergeRemotePeer.sendPresence.
    pose proof (id__sendRaw
      (JSON_stringify (JsArr [JsString "p"; v])) handle) as Hid.
    by destruct (ConvergeRemotePeer._sendRaw _ handle).
  - by apply own_ids_on_handle.
  - by apply own_ids_on_handle.
  - by apply own_ids_on_handle.
  - by apply own_ids_on_handle.
  - by apply own_ids_on_handle.
  - by apply own_ids_on_handle.
  - apply own_ids_on_handle. intros handle. simpl. apply id_open_channel.
  - apply own_ids_on_handle. apply id_handleDataChannelMessage.
  - apply own_ids_listener.
Qed.

(** X8.  In every state the client reaches, whether or not it was built
    with a logger, each handle of the peer set is stored under its own
    identifier: the events a handle emits name the entry it is stored
    under. *)
Theorem handles_stored_under_own_id (log : option Logger)
  (inputs : list Input) :
  own_ids (run_from_with log new inputs).
Proof.
  apply preserves_run_from_with; [apply own_ids_react_with|].
  by intros k handle.
Qed.

(** ** The local presence *)

Lemma presence_same (f : t → t) (v : JsValue) :
  (∀ this, _presence (f this) = _presence this) →
  preserves (presence_is v) (modify f).
Proof.
  intros Hf. apply preserves_modify. intros this. unfold presence_is, presence.
  by rewrite Hf.
Qed.

Lemma presence_mutate_peer (k : string)
  (method : ConvergeRemotePeer.t → ConvergeRemotePeer.t) (v : JsValue) :
  preserves (presence_is v) (mutate_peer k method).
Proof.
  apply presence_same. intros this. by destruct (get k (_peers this)).
Qed.

Lemma presence_is_broadcastRaw (type : string) (message v : JsValue) :
  preserves (presence_is v) (broadcastRaw type message).
Proof.
  intros this. unfold presence_is. by rewrite ClientProofs.presence_broadcastRaw.
Qed.

Create HintDb presence_frame.
#[local] Hint Resolve preserves_ret preserves_throw preserves_gets
  presence_mutate_peer presence_is_broadcastRaw : presence_frame.

Ltac presence_step :=
  first
    [ solve [auto with presence_frame]
    | solve [apply presence_same; intro; reflexivity]
    | match goal with
      | |- preserves _ (_ ≫= _) => apply preserves_bind
      | |- preserves _ (for_each _ _) => apply preserves_for_each
      | |- preserves _ (match ?x with _ => _ end) => destruct x
      | |- ∀ _, _ => intro
      end ].

Lemma presence_listener (log : option Logger) (ev : PeerEvent)
  (v : JsValue) :
  preserves (presence_is v) (listener log ev).
Proof.
  destruct ev; cbn [listener];
    unfold handlePeerDisconnected, handlePeerConnect, handleLocalOffer,
      handleLocalAnswer, handleLocalCandidate, handleRemotePeerMessage,
      handleRemotePeerDirectMessage, handleRemotePeerPresenceChanged,
      call_log, emit, signalling_emit;
    repeat presence_step.
Qed.

#[local] Hint Resolve presence_listener : presence_frame.

Lemma presence_on_handle (log : option Logger) (peerId : string)
  (method : ConvergeRemotePeer.t
            → ConvergeRemotePeer.t * list PeerEvent * option JsError)
  (v : JsValue) :
  preserves (presence_is v) (on_handle log peerId method).
Proof.
  unfold on_handle. apply preserves_bind; [auto with presence_frame|].
  intros [handle|]; [|auto with presence_frame].
  destruct (method handle) as [[handle' evs] thrown].
  repeat presence_step.
Qed.

#[local] Hint Resolve presence_on_handle : presence_frame.

(** X9.  The local presence is changed by [updatePresence] and by nothing
    else: no event of the signalling socket, no callback of a handle, no
    message from a peer and no other call alters what the [presence] getter
    returns, whether or not the client was built with a logger. *)
Theorem presence_changes_only_by_updatePresence (log : option Logger)
  (i : Input) (this : t) :
  (∀ v, i ≠ call_updatePresence v) →
  presence (react_with log i this).1 = presence this.
Proof.
  intros Hi.
  assert (Hkeep : preserves (presence_is (presence this)) (react_with log i));
    [|by apply Hkeep].
  destruct i as [socketId|ids|m|m|m refused|pid|message|v|pid message
                 |pid message|pid v|pid offer|pid answer|pid cand|pid state
                 |pid state|pid channel|pid name|pid data|ev];
    cbn [react_with];
    try (by destruct (Hi v));
    unfold handleSignallingConnect, handlePeers, handleOffer, handleAnswer,
      handleCandidate, handlePeerDisconnected, call_on_setup, setupRemotePeer,
      broadcast, directMessage, call_log, emit;
    repeat presence_step.
Qed.

Lemma presence_changes_only_by_updatePresence_witness :
  let this := (react (call_updatePresence (JsString "here")) new).1 in
  presence (react (channel_onmessage "q" (JsArr [JsString "p"; JsString "x"]))
              (react (signalling_peers ["q"]) this).1).1
  = JsString "here".
Proof.
  intros this. unfold react.
  rewrite (presence_changes_only_by_updatePresence (Some logger_given)
             (channel_onmessage "q" (JsArr [JsString "p"; JsString "x"])))
    by discriminate.
  rewrite (presence_changes_only_by_updatePresence (Some logger_given)
             (signalling_peers ["q"]))
    by discriminate.
  reflexivity.
Defined.

(** ** Decoding *)

(** X10.  The decoder drops what it does not know: a message whose
    heading is none of ["p"], ["b"], ["d"] (or is missing) raises no event,
    changes nothing in the handle and throws nothing.  A message that is
    not a sequence at all (null, a boolean, a number, an object) throws a
    [TypeError], again without touching the handle. *)
Theorem decoder_drops_unknown_headings (items : list JsValue)
  (this : ConvergeRemotePeer.t) :
  let heading := default JsUndefined (items !! 0%nat) in
  heading ≠ JsString "p" → heading ≠ JsString "b" → heading ≠ JsString "d" →
  ConvergeRemotePeer.handleDataChannelMessage (JsArr items) this
  = (this, [], None)
  ∧ ∀ data,
      match data with JsArr _ | JsString _ => False | _ => True end →
      ConvergeRemotePeer.handleDataChannelMessage data this
      = (this, [], Some (TypeError "value is not iterable")).
Proof.
  intros heading Hp Hb Hd. split.
  - unfold ConvergeRemotePeer.handleDataChannelMessage; simpl.
    fold heading. destruct heading as [| | | |h| |]; try done.
    unfold ProtocolHeading.Presence, ProtocolHeading.Broadcast,
      ProtocolHeading.DirectMessage.
    repeat case_bool_decide; congruence.
  - intros data Hdata. by destruct data.
Qed.

Lemma decoder_drops_unknown_headings_witness :
  let this := ConvergeRemotePeer.new "q" in
  ConvergeRemotePeer.handleDataChannelMessage
    (JsArr [JsString "x"; JsString "hi"]) this = (this, [], None)
  ∧ ConvergeRemotePeer.handleDataChannelMessage (JsArr []) this
    = (this, [], None)
  ∧ ConvergeRemotePeer.handleDataChannelMessage (JsNumber 7) this
    = (this, [], Some (TypeError "value is not iterable")).
Proof.
  intros this.
  destruct (decoder_drops_unknown_headings
              [JsString "x"; JsString "hi"] this) as [Hx Herr];
    [discriminate..|].
  destruct (decoder_drops_unknown_headings [] this) as [Hnil _];
    [discriminate..|].
  split; [exact Hx|]. split; [exact Hnil|]. by apply Herr.
Defined.

(** X11.  What a peer sends with [broadcast], [directMessage] or
    [updatePresence] reaches the application of the receiving client: when
    the envelope arrives on the channel of the handle for [s], the client
    emits [broadcast], [directMessage] or [peerPresenceChanged] for [s] with
    the body as JSON carries it, and after a presence envelope
    [getPresence s] returns that body. *)
Theorem envelopes_reach_application (this : t) (s : string)
  (handle : ConvergeRemotePeer.t) (body : JsValue) :
  get s (_peers this) = Some handle →
  ConvergeRemotePeer.id handle = s →
  let payload :=
    match body with JsUndefined => JsNull | _ => JSON_stringify body end in
  let receive heading :=
    react (channel_onmessage s
             (JSON_stringify (JsArr [JsString heading; body]))) this in
  ((receive ProtocolHeading.Broadcast).2 = inr ()
   ∧ emitted (receive ProtocolHeading.Broadcast).1
     = emitted this ++ [ConvergeClientEvents.broadcast s payload])
  ∧ ((receive ProtocolHeading.DirectMessage).2 = inr ()
     ∧ emitted (receive ProtocolHeading.DirectMessage).1
       = emitted this ++ [ConvergeClientEvents.directMessage s payload])
  ∧ ((receive ProtocolHeading.Presence).2 = inr ()
     ∧ emitted (receive ProtocolHeading.Presence).1
       = emitted this ++ [ConvergeClientEvents.peerPresenceChanged s payload]
     ∧ getPresence s (receive ProtocolHeading.Presence).1 = payload).
Proof.
  intros Hget Hid payload receive. unfold receive, react. cbn [react_with].
  unfold on_handle. rewrite !ClientProofs.bind_gets, Hget.
  unfold ConvergeRemotePeer.handleDataChannelMessage; simpl.
  rewrite Hid. fold payload.
  repeat split; try reflexivity.
  unfold getPresence, lookup. cbn -[get set]. rewrite get_set_eq; simpl.
  unfold payload. by destruct body.
Qed.

Lemma envelopes_reach_application_witness :
  let this := run_from new [signalling_peers ["q"]] in
  let after :=
    (react (channel_onmessage "q" (JsArr [JsString "p"; JsString "away"]))
       this).1 in
  getPresence "q" this = JsNull
  ∧ getPresence "q" after = JsString "away"
  ∧ emitted after
    = [ConvergeClientEvents.peerPresenceChanged "q" (JsString "away")].
Proof.
  intros this after.
  destruct (get "q" (_peers this)) as [handle|] eqn:Hget;
    [|vm_compute in Hget; discriminate Hget].
  assert (Hid : ConvergeRemotePeer.id handle = "q"%string).
  { vm_compute in Hget. injection Hget as <-. reflexivity. }
  destruct (envelopes_reach_application this "q" handle (JsString "away")
              Hget Hid) as (_ & _ & _ & Hev & Hpres).
  split; [reflexivity|]. split; [exact Hpres | exact Hev].
Defined.

(** X17.  The two revisions of the client agree on presence only: a
    presence envelope of either is decoded by both, but the broadcast of
    the earlier revision (heading ["m"]) raises no event at a handle of the
    later one, and the broadcast and the direct message of the later
    revision raise none at a handle of the earlier one. *)
Theorem revisions_agree_on_presence_only (body : JsValue)
  (this : ConvergeRemotePeer.t) :
  let payload :=
    match body with JsUndefined => JsNull | _ => JSON_stringify body end in
  let envelope heading := JSON_stringify (JsArr [JsString heading; body]) in
  (EarlierRevision.handleDataChannelMessage (envelope "m") this).1.2
  = [ev_message (ConvergeRemotePeer.id this) payload]
  ∧ EarlierRevision.handleDataChannelMessage (envelope "p") this
    = ConvergeRemotePeer.handleDataChannelMessage (envelope "p") this
  ∧ ConvergeRemotePeer.handleDataChannelMessage (envelope "m") this
    = (this, [], None)
  ∧ EarlierRevision.handleDataChannelMessage
      (envelope ProtocolHeading.Broadcast) this = (this, [], None)
  ∧ EarlierRevision.handleDataChannelMessage
      (envelope ProtocolHeading.DirectMessage) this = (this, [], None).
Proof. repeat split; reflexivity. Qed.

(** ** Losing and gaining peers *)

(** X12.  When a peer is reported gone its handle is removed and nothing
    else: the application is told [peerDisconnected], the other handles
    stay as they are and the peer's presence reads as null.  A direct
    message to it now fails: with the unknown-peer error when the
    identifier is not the name of a property that objects inherit, with a
    [TypeError] when it is. *)
Theorem peer_disconnected_forgets_handle (this : t) (peerId : string)
  (message : JsValue) :
  let result := handlePeerDisconnected peerId this in
  result.2 = inr ()
  ∧ get peerId (_peers result.1) = None
  ∧ (∀ other, other ≠ peerId →
       get other (_peers result.1) = get other (_peers this))
  ∧ emitted result.1
    = emitted this ++ [ConvergeClientEvents.peerDisconnected peerId]
  ∧ getPresence peerId result.1 = JsNull
  ∧ (inherited peerId = false →
       (directMessage peerId message result.1).2
       = inl (Error ("Peer " +:+ peerId +:+ " not connected")))
  ∧ (inherited peerId = true →
       ∃ e, (directMessage peerId message result.1).2 = inl e
            ∧ name e = "TypeError"%string).
Proof.
  intros result. unfold result, handlePeerDisconnected.
  rewrite ClientProofs.bind_modify. cbn -[get del].
  assert (Hgone : get peerId (del peerId (_peers this)) = None)
    by apply get_del_eq.
  split; [done|]. split; [exact Hgone|]. split.
  { intros other Hne. by apply get_del_ne. }
  split; [done|]. split; [|split].
  - unfold getPresence, lookup. cbn -[get del]. rewrite Hgone.
    by destruct (inherited peerId).
  - intros Hname. unfold directMessage. rewrite ClientProofs.bind_gets.
    cbn -[get del]. by rewrite (lookup_undefined _ _ Hgone Hname).
  - intros Hname. unfold directMessage. rewrite ClientProofs.bind_gets.
    cbn -[get del]. rewrite (lookup_from_prototype _ _ Hgone Hname).
    by eexists.
Qed.

Lemma peer_disconnected_forgets_handle_witness :
  let this := run_from new [signalling_peers ["q"; "r"]] in
  let after := (handlePeerDisconnected "q" this).1 in
  peers after = ["r"]
  ∧ (ConvergeRemotePeer.id <$> get "r" (_peers after)) = Some "r"%string
  ∧ (directMessage "q" (JsString "hi") after).2
    = inl (Error "Peer q not connected").
Proof.
  intros this after.
  destruct (peer_disconnected_forgets_handle this "q" (JsString "hi"))
    as (_ & _ & Hother & _ & _ & Hdm & _).
  split; [reflexivity|]. split; [|exact (Hdm eq_refl)].
  unfold after. rewrite (Hother "r"%string) by discriminate. reflexivity.
Defined.

(** What [handlePeers] does with identifiers that are new to the peer set. *)
Lemma handlePeers_fresh (l : Logger) (ids : list string) (this : t) :
  NoDup ids →
  (∀ k, k ∈ ids → get k (_peers this) = None ∧ inherited k = false) →
  let result := handlePeers (Some l) ids this in
  result.2 = inr ()
  ∧ peers result.1 ≡ₚ peers this ++ ids
  ∧ ((∀ k, k ∈ ids → array_index k = None) →
       peers result.1 = peers this ++ ids)
  ∧ (∀ k, k ∈ ids →
       get k (_peers result.1)
       = Some (ConvergeRemotePeer._connect (ConvergeRemotePeer.new k))
       ∧ getPresence k result.1 = JsNull)
  ∧ (∀ k, k ∉ ids → get k (_peers result.1) = get k (_peers this)).
Proof.
  intros Hnd. revert this.
  induction Hnd as [|k ids Hk Hnd IH]; intros this Hfresh result.
  - unfold result. rewrite ClientProofs.handlePeers_nil. cbn [fst snd].
    rewrite app_nil_r.
    split; [done|]. split; [done|]. split; [done|].
    split; [by intros k' ?%elem_of_nil | done].
  - destruct (Hfresh k) as [Hget Hname]; [apply list_elem_of_here|].
    unfold result. rewrite ClientProofs.handlePeers_cons.
    rewrite (ClientProofs.call_on_fresh _ _ _ _ Hget Hname).
    set (this1 := set_peers _ this).
    assert (Hother : ∀ k', k' ≠ k → get k' (_peers this1) = get k' (_peers this)).
    { intros k' Hne. unfold this1. cbn [_peers set_peers].
      by rewrite !get_set_ne. }
    assert (Hfresh1 : ∀ k', k' ∈ ids
                            → get k' (_peers this1) = None
                              ∧ inherited k' = false).
    { intros k' Hin. rewrite Hother by (intros ->; done).
      apply Hfresh. by apply list_elem_of_further. }
    assert (Hkeys : peers this1
                    = keys (set k (ConvergeRemotePeer.new k) (_peers this))).
    { unfold this1. rewrite ClientProofs.peers_set_peers.
      apply (keys_set_present _ _ _ (ConvergeRemotePeer.new k)), get_set_eq. }
    destruct (IH this1 Hfresh1) as (Hr & Hperm & Hpeers & Hnew & Hold).
    split; [exact Hr|]. split; [|split; [|split]].
    + rewrite Hperm, Hkeys. rewrite keys_set_new by done.
      unfold peers. by rewrite <- Permutation_middle.
    + intros Hindex. rewrite Hpeers, Hkeys
        by (intros k' Hin; by apply Hindex, list_elem_of_further).
      rewrite keys_set_absent
        by (done || apply Hindex, list_elem_of_here).
      unfold peers. by rewrite <- app_assoc.
    + intros k' [->|Hin]%elem_of_cons; [|by apply Hnew].
      assert (Hhandle : get k (_peers (handlePeers (Some l) ids this1).1)
                        = Some (ConvergeRemotePeer._connect
                                  (ConvergeRemotePeer.new k))).
      { rewrite Hold by done. unfold this1. cbn [_peers set_peers].
        apply get_set_eq. }
      split; [exact Hhandle|].
      unfold getPresence. by rewrite (lookup_own _ _ _ Hhandle).
    + intros k' [Hne Hnin]%not_elem_of_cons.
      rewrite Hold by done. by apply Hother.
Qed.

(** X13.  In a client built with a logger, the member list the relay sends
    on joining turns into one initiating handle per peer: for identifiers
    that are distinct, have no handle yet and are not names of properties
    that objects inherit, [handlePeers] adds them to the peer set, each
    with a data channel that is not open yet and an offer requested; their
    presence reads as null; the handles that were there are untouched.
    The new identifiers come after the old ones in the order of the list
    when none of them is an array index; an identifier that is an array
    index is enumerated before the others.  In a client built without a
    logger [handlePeers] throws a [TypeError] and creates nothing. *)
Theorem handlePeers_creates_initiators (ids : list string) (this : t) :
  NoDup ids →
  (∀ k, k ∈ ids → get k (_peers this) = None ∧ inherited k = false) →
  (∀ l,
     let result := handlePeers (Some l) ids this in
     result.2 = inr ()
     ∧ peers result.1 ≡ₚ peers this ++ ids
     ∧ ((∀ k, k ∈ ids → array_index k = None) →
          peers result.1 = peers this ++ ids)
     ∧ (∀ k, k ∈ ids →
          get k (_peers result.1)
          = Some (ConvergeRemotePeer._connect (ConvergeRemotePeer.new k))
          ∧ getPresence k result.1 = JsNull)
     ∧ (∀ k, k ∉ ids → get k (_peers result.1) = get k (_peers this)))
  ∧ (handlePeers None ids this).1 = this
  ∧ ∃ e, (handlePeers None ids this).2 = inl e ∧ name e = "TypeError"%string.
Proof.
  intros Hnd Hfresh. split; [|split].
  - intros l. by apply handlePeers_fresh.
  - reflexivity.
  - by eexists.
Qed.

Lemma handlePeers_creates_initiators_witness :
  let this :=
    run_from new
      [signalling_offer {| sdp := "o"; peerId := "me"; sourcePeerId := "r" |}] in
  let result := handlePeers (Some logger_given) ["q"; "s"] this in
  result.2 = inr ()
  ∧ peers result.1 = ["r"; "q"; "s"]
  ∧ (ConvergeRemotePeer.connected <$> get "q" (_peers result.1)) = Some false
  ∧ peers (handlePeers (Some logger_given) ["q"; "7"] this).1 = ["7"; "r"; "q"].
Proof.
  intros this result.
  destruct (handlePeers_creates_initiators ["q"; "s"] this)
    as (Hlogged & _).
  - apply (bool_decide_unpack _). vm_compute. exact I.
  - intros k Hk. rewrite !elem_of_cons, elem_of_nil in Hk.
    destruct Hk as [->|[->|[]]]; split; reflexivity.
  - destruct (Hlogged logger_given) as (Hr & _ & Hpeers & Hnew & _).
    split; [exact Hr|]. split; [|split; [|reflexivity]].
    + apply Hpeers. intros k Hk. rewrite !elem_of_cons, elem_of_nil in Hk.
      destruct Hk as [->|[->|[]]]; reflexivity.
    + destruct (Hnew "q"%string) as [Hq _]; [apply list_elem_of_here|].
      fold result in Hq. rewrite Hq. reflexivity.
Defined.

(** What [handlePeerConnect] does for a handle whose channel is open. *)
Lemma handlePeerConnect_connected (l : Logger) (this : t) (peerId : string)
  (handle : ConvergeRemotePeer.t) :
  get peerId (_peers this) = Some handle →
  ConvergeRemotePeer.connected handle = true →
  let result := handlePeerConnect (Some l) peerId this in
  result.2 = inr ()
  ∧ emitted result.1
    = emitted this ++ [ConvergeClientEvents.peerConnected peerId]
  ∧ delivered_to peerId result.1
    = ConvergeRemotePeer.delivered handle
      ++ [JSON_stringify (JsArr [JsString "p"; presence this])]
  ∧ (ConvergeRemotePeer.connected <$> get peerId (_peers result.1))
    = Some true.
Proof.
  intros Hget Hconn result. unfold result, handlePeerConnect, emit.
  rewrite ClientProofs.logged.
  rewrite ClientProofs.bind_modify, ClientProofs.bind_gets.
  cbn [_peers]. rewrite (lookup_own _ _ _ Hget).
  rewrite ClientProofs.bind_gets.
  cbv zeta. unfold presence. cbn [_presence].
  destruct (RemotePeerFacts._sendRaw_connected
              (JSON_stringify (JsArr [JsString "p"; _presence this]))
              handle Hconn) as (handle' & Hsend & Hdel & Hconn' & _).
  rewrite Hsend. rewrite ClientProofs.bind_modify.
  unfold delivered_to, mret, M_ret. cbn [fst snd set_peers _peers emitted].
  rewrite !get_set_eq. cbn [fmap option_fmap option_map].
  by rewrite Hconn', Hdel.
Qed.

(** X14.  When the data channel of a handle opens, the application is told
    [peerConnected] and the local presence is the first thing handed to
    that channel, which is now connected. *)
Theorem channel_open_sends_presence (this : t) (peerId : string)
  (handle : ConvergeRemotePeer.t) (channel : RTCDataChannel) :
  get peerId (_peers this) = Some handle →
  ConvergeRemotePeer.id handle = peerId →
  ConvergeRemotePeer.dataChannels handle
    !! ConvergeRemotePeer.DATA_CHANNEL_LABEL = Some channel →
  let result :=
    react (channel_onopen peerId ConvergeRemotePeer.DATA_CHANNEL_LABEL) this in
  result.2 = inr ()
  ∧ emitted result.1
    = emitted this ++ [ConvergeClientEvents.peerConnected peerId]
  ∧ delivered_to peerId result.1
    = sent channel ++ [JSON_stringify (JsArr [JsString "p"; presence this])]
  ∧ (ConvergeRemotePeer.connected <$> get peerId (_peers result.1))
    = Some true.
Proof.
  intros Hget Hid Hchannel result. unfold result, react. cbn [react_with].
  unfold on_handle. rewrite ClientProofs.bind_gets, Hget.
  set (handle1 := open_channel ConvergeRemotePeer.DATA_CHANNEL_LABEL handle).
  cbv zeta. rewrite ClientProofs.bind_modify.
  set (this1 := set_peers (set peerId handle1 (_peers this)) this).
  unfold ConvergeRemotePeer.handleDataChannelOpen.
  replace (ConvergeRemotePeer.id handle1) with peerId
    by (unfold handle1; by rewrite id_open_channel).
  cbn [for_each listener]. rewrite ClientProofs.bind_eq.
  assert (Hopen : ConvergeRemotePeer.connected handle1 = true
                  ∧ ConvergeRemotePeer.delivered handle1 = sent channel).
  { unfold handle1, open_channel. rewrite Hchannel.
    unfold ConvergeRemotePeer.connected, ConvergeRemotePeer.delivered; simpl.
    by rewrite lookup_insert_eq. }
  destruct Hopen as [Hconn Hsent].
  destruct (handlePeerConnect_connected logger_given this1 peerId handle1)
    as (Hr & Hev & Hdel & Hc); [apply get_set_eq | exact Hconn |].
  destruct (handlePeerConnect (Some logger_given) peerId this1)
    as [this2 r] eqn:Hresult.
  simpl in Hr, Hev, Hdel, Hc. subst r. simpl.
  rewrite Hsent in Hdel. done.
Qed.

Lemma channel_open_sends_presence_witness :
  let this :=
    run_from new [call_updatePresence (JsString "here"); signalling_peers ["q"]] in
  let result := react (channel_onopen "q" "data") this in
  result.2 = inr ()
  ∧ delivered_to "q" result.1 = [JsArr [JsString "p"; JsString "here"]].
Proof.
  intros this result.
  destruct (get "q" (_peers this)) as [handle|] eqn:Hget;
    [|vm_compute in Hget; discriminate Hget].
  assert (Hhandle : handle = ConvergeRemotePeer._connect (ConvergeRemotePeer.new "q")).
  { vm_compute in Hget. injection Hget as <-. reflexivity. }
  destruct (channel_open_sends_presence this "q" handle
              {| label := "data"; readyState := connecting; sent := [] |}
              Hget) as (Hr & _ & Hdel & _).
  - by rewrite Hhandle.
  - by rewrite Hhandle.
  - split; [exact Hr | exact Hdel].
Defined.

(** X15.  What the transport of a handle produces locally goes to the
    relay addressed to that handle's peer and signed with the client's own
    identifier: an offer, an answer and a candidate each produce exactly one
    signalling message; the end-of-candidates event produces none; the peer
    set keeps its identifiers. *)
Theorem local_negotiation_is_signalled (this : t) (peerId : string)
  (handle : ConvergeRemotePeer.t) (description : string) :
  get peerId (_peers this) = Some handle →
  let signalled event :=
    signalling_emitted this
    ++ [{| event := event; data := description;
           target := ConvergeRemotePeer.id handle;
           source := signalling_id this |}] in
  let outcome i := react i this in
  ((outcome (rtc_offer_created peerId description)).2 = inr ()
   ∧ signalling_emitted (outcome (rtc_offer_created peerId description)).1
     = signalled "offer"%string
   ∧ peers (outcome (rtc_offer_created peerId description)).1 = peers this)
  ∧ ((outcome (rtc_answer_created peerId description)).2 = inr ()
     ∧ signalling_emitted (outcome (rtc_answer_created peerId description)).1
       = signalled "answer"%string
     ∧ peers (outcome (rtc_answer_created peerId description)).1 = peers this)
  ∧ ((outcome (rtc_icecandidate peerId (Some description))).2 = inr ()
     ∧ signalling_emitted
         (outcome (rtc_icecandidate peerId (Some description))).1
       = signalled "candidate"%string
     ∧ peers (outcome (rtc_icecandidate peerId (Some description))).1
       = peers this)
  ∧ signalling_emitted (outcome (rtc_icecandidate peerId None)).1
    = signalling_emitted this.
Proof.
  intros Hget signalled outcome. unfold outcome, signalled, react.
  cbn [react_with].
  unfold on_handle. rewrite !ClientProofs.bind_gets, Hget.
  unfold peers. cbn -[set keys mbind].
  rewrite !ClientProofs.bind_modify.
  unfold handleLocalOffer, handleLocalAnswer, handleLocalCandidate,
    signalling_emit.
  unfold call_log, modify, mbind, M_bind, mret, M_ret. cbn -[set keys].
  rewrite !(keys_set_present _ _ _ _ Hget). done.
Qed.

Lemma local_negotiation_is_signalled_witness :
  let this := run_from new [signalling_connect "me"; signalling_peers ["q"]] in
  signalling_emitted (react (rtc_offer_created "q" "sdp") this).1
  = [{| event := "offer"; data := "sdp"; target := "q";
        source := Some "me"%string |}].
Proof.
  intros this.
  destruct (get "q" (_peers this)) as [handle|] eqn:Hget;
    [|vm_compute in Hget; discriminate Hget].
  destruct (local_negotiation_is_signalled this "q" handle "sdp" Hget)
    as ((_ & Hoffer & _) & _).
  rewrite Hoffer. vm_compute in Hget. injection Hget as <-. reflexivity.
Defined.

Lemma disconnect_event_removes_handle (log : option Logger) (this : t)
  (peerId : string) (handle : ConvergeRemotePeer.t) :
  let result :=
    (modify (λ this, set_peers (set peerId handle (_peers this)) this) ;;
     for_each [ev_disconnect peerId] (listener log)) this in
  result.2 = inr ()
  ∧ get peerId (_peers result.1) = None
  ∧ emitted result.1
    = emitted this ++ [ConvergeClientEvents.peerDisconnected peerId]
  ∧ ∀ other, other ≠ peerId →
      get other (_peers result.1) = get other (_peers this).
Proof.
  intros result. unfold result. rewrite ClientProofs.bind_modify.
  cbn [for_each listener]. unfold handlePeerDisconnected, emit.
  rewrite ClientProofs.bind_eq, !ClientProofs.bind_modify.
  unfold modify, mret, M_ret. cbn -[get set del keys].
  split; [done|]. split; [apply get_del_eq|]. split; [done|].
  intros other Hne. rewrite get_del_ne by done. by rewrite get_set_ne.
Qed.

(** X16.  A transport that reports its ICE connection closed, failed or
    disconnected, or its signalling state closed, costs the client the
    handle: it is removed from the peer set and the application is told
    [peerDisconnected], the other handles staying as they are.  Any other
    ICE connection state leaves the peer set and the emitted events as they
    were.  This holds whether or not the client was built with a logger. *)
Theorem transport_failure_removes_handle (log : option Logger) (this : t)
  (peerId state : string) (handle : ConvergeRemotePeer.t) :
  get peerId (_peers this) = Some handle →
  ConvergeRemotePeer.id handle = peerId →
  let ice := react_with log (rtc_iceconnectionstatechange peerId state) this in
  let signalling :=
    react_with log (rtc_signalingstatechange peerId "closed") this in
  (state = "closed"%string ∨ state = "failed"%string
   ∨ state = "disconnected"%string →
     ice.2 = inr ()
     ∧ get peerId (_peers ice.1) = None
     ∧ emitted ice.1
       = emitted this ++ [ConvergeClientEvents.peerDisconnected peerId]
     ∧ ∀ other, other ≠ peerId →
         get other (_peers ice.1) = get other (_peers this))
  ∧ (state ≠ "closed"%string → state ≠ "failed"%string →
     state ≠ "disconnected"%string →
       ice.2 = inr ()
       ∧ get peerId (_peers ice.1) = Some handle
       ∧ peers ice.1 = peers this
       ∧ emitted ice.1 = emitted this)
  ∧ (signalling.2 = inr ()
     ∧ get peerId (_peers signalling.1) = None
     ∧ emitted signalling.1
       = emitted this ++ [ConvergeClientEvents.peerDisconnected peerId]).
Proof.
  intros Hget Hid ice signalling. unfold ice, signalling. cbn [react_with].
  unfold on_handle. rewrite !ClientProofs.bind_gets, Hget. cbv zeta.
  unfold ConvergeRemotePeer.handleIceConnectionStateChange,
    ConvergeRemotePeer.handleSignalingStateChange.
  rewrite Hid.
  pose proof (disconnect_event_removes_handle log this peerId handle) as Hgone.
  cbv zeta in Hgone.
  split; [|split].
  - intros [-> | [-> | ->]]; exact Hgone.
  - intros H1 H2 H3. rewrite !bool_decide_eq_false_2 by done.
    cbn [orb]. rewrite ClientProofs.bind_modify.
    unfold for_each, mret, M_ret. cbn [fst snd _peers set_peers emitted].
    split; [done|]. split; [apply get_set_eq|]. split; [|done].
    rewrite ClientProofs.peers_set_peers. by eapply keys_set_present.
  - destruct Hgone as (H1 & H2 & H3 & _). by repeat split.
Qed.

Lemma transport_failure_removes_handle_witness :
  let this := run_from new [signalling_peers ["q"; "r"]] in
  peers (react (rtc_iceconnectionstatechange "q" "failed") this).1 = ["r"]
  ∧ peers (react (rtc_iceconnectionstatechange "q" "checking") this).1
    = ["q"; "r"].
Proof.
  intros this.
  destruct (get "q" (_peers this)) as [handle|] eqn:Hget;
    [|vm_compute in Hget; discriminate Hget].
  assert (Hid : ConvergeRemotePeer.id handle = "q"%string).
  { vm_compute in Hget. injection Hget as <-. reflexivity. }
  destruct (transport_failure_removes_handle (Some logger_given) this "q"
              "checking" handle Hget Hid) as (_ & Hkeep & _).
  destruct Hkeep as (_ & _ & Hpeers & _); [discriminate..|].
  split; [reflexivity | exact Hpeers].
Defined.

End ClientMore.

(** * The relay and the clients together *)

Module SessionSetup.
Import JsObject JsObjectFacts ConvergeClient.

(** ** Single steps, with the state they leave *)

Lemma react_description_created (this : t) (peerId description : string)
  (handle : ConvergeRemotePeer.t) (offer : bool) :
  get peerId (_peers this) = Some handle →
  react (if offer then rtc_offer_created peerId description
         else rtc_answer_created peerId description) this
  = ({| _peers :=
          set peerId
            (ConvergeRemotePeer.rtc_call (setLocalDescription description) handle)
            (_peers this);
        _presence := _presence this;
        signalling_id := signalling_id this;
        emitted := emitted this;
        signalling_emitted :=
          signalling_emitted this
          ++ [{| event := if offer then "offer" else "answer";
                 data := description;
                 target := ConvergeRemotePeer.id handle;
                 source := signalling_id this |}] |},
     inr ()).
Proof.
  intros Hget. unfold react. destruct offer; cbn [react_with];
    unfold on_handle; rewrite ClientProofs.bind_gets, Hget; reflexivity.
Qed.

Lemma react_offer_from_stranger (this : t) (m : SignalMessage) :
  get (sourcePeerId m) (_peers this) = None →
  inherited (sourcePeerId m) = false →
  react (signalling_offer m) this
  = (set_peers
       (set (sourcePeerId m)
          (ConvergeRemotePeer._handleOffer m
             (ConvergeRemotePeer.new (sourcePeerId m)))
          (set (sourcePeerId m) (ConvergeRemotePeer.new (sourcePeerId m))
             (_peers this))) this,
     inr ()).
Proof.
  intros Hget Hname. unfold react. cbn [react_with].
  rewrite ClientProofs.handleOffer_eq. by apply ClientProofs.call_on_fresh.
Qed.

Lemma react_answer_for_handle (this : t) (m : SignalMessage)
  (handle : ConvergeRemotePeer.t) :
  get (sourcePeerId m) (_peers this) = Some handle →
  react (signalling_answer m) this
  = (set_peers
       (set (sourcePeerId m) (ConvergeRemotePeer._handleAnswer m handle)
          (_peers this)) this,
     inr ()).
Proof.
  intros Hget. unfold react. cbn [react_with]. unfold handleAnswer.
  rewrite ClientProofs.logged, ClientProofs.bind_gets.
  rewrite (lookup_own _ _ _ Hget). unfold mutate_peer, modify.
  by rewrite Hget.
Qed.

Lemma NoDup_ids (l : list Relay.Socket) :
  NoDup l → NoDup (map Relay.id l).
Proof.
  induction 1 as [|c l Hc Hnd IH]; simpl; constructor; [|done].
  intros Hin. apply Hc.
  apply list_elem_of_In, in_map_iff in Hin as (x & Hid & Hx).
  apply list_elem_of_In in Hx. destruct x, c; simpl in *; by subst.
Qed.

(** ** Joining *)

(** X18.  For a room whose name is not the name of a property that objects
    inherit and whose members are distinct: the relay answers a join with
    one event, the member list, sent to the joiner and to nobody else.  A
    joiner built with a logger answers it by creating one initiating handle
    for every member (the identifiers of members not being names of
    inherited properties), in the order of the room when no identifier is
    an array index.  A joiner built without a logger creates nothing. *)
Theorem joiner_initiates_to_every_member
  (refused : SignalMessage → option JsError) (st : Relay.State)
  (room : string) (c : Relay.Socket) :
  inherited room = false →
  NoDup (Relay.members room st) →
  (∀ k, k ∈ map Relay.id (Relay.members room st) → inherited k = false) →
  let events :=
    Wire.delivered_by_relay refused c (Relay.Join room) st (Relay.id c) in
  let client := run_from new events in
  (Relay.join room c st).2
  = [(Relay.id c, Relay.Peers (map Relay.id (Relay.members room st)))]
  ∧ events = [signalling_peers (map Relay.id (Relay.members room st))]
  ∧ (∀ other, other ≠ Relay.id c →
       Wire.delivered_by_relay refused c (Relay.Join room) st other = [])
  ∧ peers client ≡ₚ map Relay.id (Relay.members room st)
  ∧ ((∀ k, k ∈ map Relay.id (Relay.members room st) → array_index k = None) →
       peers client = map Relay.id (Relay.members room st))
  ∧ (∀ k, k ∈ map Relay.id (Relay.members room st) →
       get k (_peers client)
       = Some (ConvergeRemotePeer._connect (ConvergeRemotePeer.new k)))
  ∧ run_from_with None new events = new.
Proof.
  intros Hroom Hnd Hnames events client.
  assert (Hjoin : (Relay.join room c st).2
                  = [(Relay.id c,
                      Relay.Peers (map Relay.id (Relay.members room st)))])
    by (by rewrite (RelayProofs.join_goes_through room c st Hroom)).
  assert (Hevents : events
                    = [signalling_peers (map Relay.id (Relay.members room st))]).
  { unfold events, Wire.delivered_by_relay. cbn [Relay.handle].
    rewrite Hjoin. simpl. by rewrite bool_decide_eq_true_2. }
  split; [exact Hjoin|]. split; [exact Hevents|]. split.
  { intros other Hne. unfold Wire.delivered_by_relay. cbn [Relay.handle].
    rewrite Hjoin. simpl. by rewrite bool_decide_eq_false_2. }
  unfold client. rewrite Hevents.
  unfold run_from. cbn [run_from_with fold_left react_with].
  destruct (ClientMore.handlePeers_fresh logger_given
              (map Relay.id (Relay.members room st)) new)
    as (_ & Hperm & Hpeers & Hnew & _);
    [by apply NoDup_ids | by intros k Hk; split; [|apply Hnames] |].
  split; [exact Hperm|]. split; [exact Hpeers|]. split; [|reflexivity].
  intros k Hk. by apply Hnew.
Qed.

Lemma joiner_initiates_to_every_member_witness :
  let a := {| Relay.id := "a" |} in
  let b := {| Relay.id := "b" |} in
  let c := {| Relay.id := "c" |} in
  let st := (Relay.run [(a, Relay.Join "t"); (b, Relay.Join "t")]).1 in
  peers (run_from new
           (Wire.delivered_by_relay (λ _, None) c (Relay.Join "t") st "c"))
  = ["a"; "b"].
Proof.
  intros a b c st.
  assert (Hids : map Relay.id (Relay.members "t" st) = ["a"; "b"]%string)
    by reflexivity.
  destruct (joiner_initiates_to_every_member (λ _, None) st "t" c)
    as (_ & _ & _ & _ & Hpeers & _).
  - reflexivity.
  - apply (bool_decide_unpack _). vm_compute. exact I.
  - intros k Hk. rewrite Hids, !elem_of_cons, elem_of_nil in Hk.
    destruct Hk as [->|[->|[]]]; reflexivity.
  - apply Hpeers.
    intros k Hk. rewrite Hids, !elem_of_cons, elem_of_nil in Hk.
    destruct Hk as [->|[->|[]]]; reflexivity.
Defined.

(** ** Offer and answer *)

(** X19.  One round of negotiation through the relay, between two clients
    built with a logger, the responder having no handle for the initiator
    [b], whose identifier is not the name of a property that objects
    inherit.  The offer that the transport of [b]'s handle for [a] produces
    is emitted by [b]; the relay leaves its registry as it is and emits the
    offer once, to [a], so that no other socket receives anything; the
    offer makes [a] create a handle for [b] that takes it as remote
    description and asks for an answer.  That answer is emitted by [a],
    emitted by the relay once, to [b], and set as remote description on the
    very handle that made the offer. *)
Theorem offer_answer_round (refused : SignalMessage → option JsError)
  (initiator responder : t) (relay : Relay.State)
  (a b offer answer : string) (handle : ConvergeRemotePeer.t) :
  signalling_id initiator = Some b →
  signalling_id responder = Some a →
  get a (_peers initiator) = Some handle →
  ConvergeRemotePeer.id handle = a →
  get b (_peers responder) = None →
  inherited b = false →
  let offered := {| event := "offer"; data := offer; target := a;
                    source := Some b |} in
  let answered := {| event := "answer"; data := answer; target := b;
                     source := Some a |} in
  let offerMessage := {| sdp := offer; peerId := a; sourcePeerId := b |} in
  let answerMessage := {| sdp := answer; peerId := b; sourcePeerId := a |} in
  let initiator1 := (react (rtc_offer_created a offer) initiator).1 in
  let to_a :=
    Wire.delivered_by_relay refused {| Relay.id := b |}
      (Relay.SendOffer offerMessage) relay a in
  let responder1 := run_from responder (to_a ++ [rtc_answer_created b answer]) in
  let to_b :=
    Wire.delivered_by_relay refused {| Relay.id := a |}
      (Relay.SendAnswer answerMessage) relay b in
  let initiator2 := run_from initiator1 to_b in
  signalling_emitted initiator1 = signalling_emitted initiator ++ [offered]
  ∧ Wire.to_relay offered = Some (Relay.SendOffer offerMessage)
  ∧ Relay.handle {| Relay.id := b |} (Relay.SendOffer offerMessage) relay
    = (relay, [(a, Relay.Offer offerMessage)])
  ∧ to_a = [signalling_offer offerMessage]
  ∧ (∀ other, other ≠ a →
       Wire.delivered_by_relay refused {| Relay.id := b |}
         (Relay.SendOffer offerMessage) relay other = [])
  ∧ (ConvergeRemotePeer.rtc <$> get b (_peers responder1))
    = Some [setRemoteDescription "offer" offer; createAnswer;
            setLocalDescription answer]
  ∧ signalling_emitted responder1 = signalling_emitted responder ++ [answered]
  ∧ Wire.to_relay answered = Some (Relay.SendAnswer answerMessage)
  ∧ Relay.handle {| Relay.id := a |} (Relay.SendAnswer answerMessage) relay
    = (relay, [(b, Relay.Answer answerMessage)])
  ∧ to_b = [signalling_answer answerMessage]
  ∧ (∀ other, other ≠ b →
       Wire.delivered_by_relay refused {| Relay.id := a |}
         (Relay.SendAnswer answerMessage) relay other = [])
  ∧ (ConvergeRemotePeer.rtc <$> get a (_peers initiator2))
    = Some (ConvergeRemotePeer.rtc handle
            ++ [setLocalDescription offer; setRemoteDescription "answer" answer]).
Proof.
  intros Hb Ha Hget Hid Hfresh Hname offered answered offerMessage
    answerMessage initiator1 to_a responder1 to_b initiator2.
  assert (Hto_a : to_a = [signalling_offer offerMessage]).
  { unfold to_a, Wire.delivered_by_relay. simpl.
    by rewrite bool_decide_eq_true_2. }
  assert (Hto_b : to_b = [signalling_answer answerMessage]).
  { unfold to_b, Wire.delivered_by_relay. simpl.
    by rewrite bool_decide_eq_true_2. }
  assert (Hi1 : initiator1
                = {| _peers :=
                       set a (ConvergeRemotePeer.rtc_call
                                (setLocalDescription offer) handle)
                         (_peers initiator);
                     _presence := _presence initiator;
                     signalling_id := signalling_id initiator;
                     emitted := emitted initiator;
                     signalling_emitted :=
                       signalling_emitted initiator ++ [offered] |}).
  { unfold initiator1.
    rewrite (react_description_created initiator a offer handle true Hget).
    cbn [fst]. unfold offered. by rewrite Hid, Hb. }
  assert (Hr1 : responder1
                = {| _peers :=
                       set b (ConvergeRemotePeer.rtc_call
                                (setLocalDescription answer)
                                (ConvergeRemotePeer._handleOffer offerMessage
                                   (ConvergeRemotePeer.new b)))
                         (set b (ConvergeRemotePeer._handleOffer offerMessage
                                   (ConvergeRemotePeer.new b))
                            (set b (ConvergeRemotePeer.new b)
                               (_peers responder)));
                     _presence := _presence responder;
                     signalling_id := signalling_id responder;
                     emitted := emitted responder;
                     signalling_emitted :=
                       signalling_emitted responder ++ [answered] |}).
  { unfold responder1. rewrite Hto_a.
    unfold run_from. cbn [app run_from_with fold_left].
    fold (react (signalling_offer offerMessage)).
    rewrite (react_offer_from_stranger responder offerMessage Hfresh Hname).
    cbn [fst sourcePeerId offerMessage].
    fold (react (rtc_answer_created b answer)).
    rewrite (react_description_created _ b answer
               (ConvergeRemotePeer._handleOffer offerMessage
                  (ConvergeRemotePeer.new b)) false)
      by (cbn [_peers set_peers]; apply get_set_eq).
    cbn -[get set]. unfold answered. by rewrite Ha. }
  split; [by rewrite Hi1|]. split; [reflexivity|]. split; [reflexivity|].
  split; [exact Hto_a|]. split.
  { intros other Hne. unfold Wire.delivered_by_relay. simpl.
    by rewrite bool_decide_eq_false_2. }
  split; [rewrite Hr1; cbn [_peers]; by rewrite get_set_eq|].
  split; [by rewrite Hr1|]. split; [reflexivity|]. split; [reflexivity|].
  split; [exact Hto_b|]. split.
  { intros other Hne. unfold Wire.delivered_by_relay. simpl.
    by rewrite bool_decide_eq_false_2. }
  unfold initiator2. rewrite Hto_b.
  unfold run_from. cbn [run_from_with fold_left].
  fold (react (signalling_answer answerMessage)).
  rewrite (react_answer_for_handle initiator1 answerMessage
             (ConvergeRemotePeer.rtc_call (setLocalDescription offer) handle))
    by (rewrite Hi1; cbn [_peers sourcePeerId answerMessage]; apply get_set_eq).
  cbn [fst _peers set_peers sourcePeerId answerMessage].
  rewrite get_set_eq. simpl. by rewrite <- app_assoc.
Qed.

Lemma offer_answer_round_witness :
  let initiator :=
    run_from new [signalling_connect "b"; signalling_peers ["a"]] in
  let responder := run_from new [signalling_connect "a"] in
  let answerMessage := {| sdp := "y"; peerId := "b"; sourcePeerId := "a" |} in
  let initiator2 :=
    run_from initiator [rtc_offer_created "a" "x"; signalling_answer answerMessage] in
  (ConvergeRemotePeer.rtc <$> get "a" (_peers initiator2))
  = Some [createDataChannel "data"; createOffer; setLocalDescription "x";
          setRemoteDescription "answer" "y"].
Proof.
  intros initiator responder answerMessage initiator2.
  destruct (offer_answer_round (λ _, None) initiator responder Relay.init
              "a" "b" "x" "y"
              (ConvergeRemotePeer._connect (ConvergeRemotePeer.new "a")))
    as (_ & _ & _ & _ & _ & _ & _ & _ & _ & Hto_b & _ & Hrtc);
    [reflexivity..|].
  rewrite Hto_b in Hrtc. exact Hrtc.
Defined.

End SessionSetup.
